(** * osmborder_filter: a shallow embedding of [src/osmborder_filter.cpp]

    The program copies, out of an OSM file, the relations that are
    administrative boundaries, the ways these relations have as members and
    the nodes of these ways. It reads the input three times (relations, ways,
    nodes). A change file (JSON) can force relations in or out and can add
    tags to ways.

    Conventions of the embedding.
    - [osmium::object_id_type] is a signed 64-bit integer; identifiers are
      only stored and compared, never computed with, so they are [Z].
    - [idset] ([std::unordered_set]) is [gset Z]; [idmap]
      ([std::unordered_map]) is [gmap Z _]; [strmap]
      ([std::map<std::string,std::string>]) is [gmap string string], read in
      ascending key order where the program iterates over it.
    - A tag list ([osmium::TagList]) is the sequence of key/value pairs in
      the order the builder wrote them.
    - Standard error is part of a run's result; standard output (the texts
      of [--help] and [--version]) is not. *)

From stdpp Require Import gmap strings list sorting pretty.

Local Open Scope string_scope.
Local Open Scope list_scope.
Local Open Scope Z_scope.

(** ** OSM objects *)

Definition object_id_type := Z.

Definition Tag : Type := string * string.
Definition TagList : Type := list Tag.

(** The attributes of an [osmium::OSMObject] other than id and tags. *)
Record object_meta := ObjectMeta {
  meta_version : Z;
  meta_changeset : Z;
  meta_timestamp : Z;
  meta_uid : Z;
  meta_user : string;
  meta_visible : bool
}.

(** What a freshly constructed builder object holds before any setter
    is called. *)
Definition default_meta : object_meta :=
  ObjectMeta 0 0 0 0 "" true.

(** [osmium::Location]: two 32-bit fixed-point coordinates, in units of
    [1/coordinate_precision] degrees. *)
Definition coordinate_precision : Z := 10000000.

Record Location := MkLocation { loc_x : Z; loc_y : Z }.

Record NodeRef := MkNodeRef { nr_ref : object_id_type; nr_location : Location }.

Inductive item_type := it_node | it_way | it_relation.

Global Instance item_type_eq_dec : EqDecision item_type.
Proof. solve_decision. Defined.

Record RelationMember := MkMember {
  rm_type : item_type;
  rm_ref : object_id_type;
  rm_role : string
}.

Record Node := MkNode {
  node_id : object_id_type;
  node_meta : object_meta;
  node_tags : TagList;
  node_location : Location
}.

Record Way := MkWay {
  way_id : object_id_type;
  way_meta : object_meta;
  way_tags : TagList;
  way_nodes : list NodeRef
}.

Record Relation := MkRelation {
  relation_id : object_id_type;
  relation_meta : object_meta;
  relation_tags : TagList;
  relation_members : list RelationMember
}.

Inductive entity :=
| ERelation (r : Relation)
| EWay (w : Way)
| ENode (n : Node).

(** [TagList::get_value_by_key(key)]: the value of the first tag with this
    key. *)
Definition get_value_by_key (tags : TagList) (key : string) : option string :=
  snd <$> List.find (λ t, bool_decide (t.1 = key)) tags.

(** [TagList::has_tag(key, value)]: the key is there and its value is
    this one. *)
Definition has_tag (tags : TagList) (key value : string) : bool :=
  match get_value_by_key tags key with
  | Some v => bool_decide (v = value)
  | None => false
  end.

(** ** The change file tables *)

Abbreviation idset := (gset object_id_type).
Abbreviation strmap := (gmap string string).
Abbreviation idmap := (gmap object_id_type (gmap string string)).

Record config := Config {
  waymap : idmap;
  yesborder : idset;
  noborder : idset
}.

Definition tag_key_le (a b : Tag) : Prop := String.le a.1 b.1.

Global Instance tag_key_le_dec : RelDecision tag_key_le.
Proof. intros a b. unfold tag_key_le. apply _. Defined.

(** A range-for over a [strmap] visits the pairs in ascending key order. *)
Definition strmap_items (m : strmap) : list Tag :=
  merge_sort tag_key_le (map_to_list m).

(** ** RewriteHandler *)

Module RewriteHandler.

(** [TagListBuilder::add_tag] writes the key and the value after the tags
    already in the list under construction; it does not look at them. *)
Definition add_tag (builder : TagList) (t : Tag) : TagList := builder ++ [t].

(** copy existing tags *)
Definition copy_tags (tags : TagList) : TagList :=
  fold_left add_tag tags [].

(** copy existing and overwrite with supplied *)
Definition copy_tags_with (tags : TagList) (tagmap : strmap) : TagList :=
  fold_left add_tag (strmap_items tagmap) (fold_left add_tag tags []).

(** The node handler common *)
Definition node (n : Node) : Node :=
  {| node_id := node_id n;
     node_meta := default_meta;
     node_tags := copy_tags (node_tags n);
     node_location := node_location n |}.

(** The way handler for unchanged *)
Definition way (w : Way) : Way :=
  {| way_id := way_id w;
     way_meta := default_meta;
     way_tags := copy_tags (way_tags w);
     way_nodes := way_nodes w |}.

(** The way handler for changed *)
Definition way_with (w : Way) (tagmap : strmap) : Way :=
  {| way_id := way_id w;
     way_meta := default_meta;
     way_tags := copy_tags_with (way_tags w) tagmap;
     way_nodes := way_nodes w |}.

(** The relation handler *)
Definition relation (r : Relation) : Relation :=
  {| relation_id := relation_id r;
     relation_meta := default_meta;
     relation_tags := copy_tags (relation_tags r);
     relation_members := relation_members r |}.

End RewriteHandler.

(** ** The vectors of collected identifiers *)

(** [std::sort] on a vector of integers: the ascending arrangement. *)
Definition std_sort (ids : list object_id_type) : list object_id_type :=
  merge_sort Z.le ids.

(** The elements [std::unique] keeps behind [prev]: the first of each run
    of equal neighbours. *)
Fixpoint unique_from (prev : object_id_type) (ids : list object_id_type)
  : list object_id_type :=
  match ids with
  | [] => []
  | y :: ids' =>
      if bool_decide (prev = y) then unique_from prev ids'
      else y :: unique_from y ids'
  end.

Definition unique_prefix (ids : list object_id_type) : list object_id_type :=
  match ids with
  | [] => []
  | x :: ids' => x :: unique_from x ids'
  end.

(** [std::unique(v.begin(), v.end())] works in place and does not resize
    the vector: the kept elements move to the front, the returned iterator
    (here an index) is the end of that range, and the slots from there on
    are not written, they keep the integers they held. *)
Definition std_unique (ids : list object_id_type)
  : list object_id_type * nat :=
  let kept := unique_prefix ids in
  (kept ++ drop (length kept) ids, length kept).

(** ** Reading through the cursor

    [first] and [last] are iterators into the vector, modelled by their
    index. A computation of type [access A] carries the indices it
    dereferenced, in order, and its result; the result is [None] when an
    index outside the vector was dereferenced, which C++ leaves undefined. *)

Definition access (A : Type) : Type := list nat * option A.

Global Instance access_ret : MRet access := λ A a, ([], Some a).

Global Instance access_bind : MBind access := λ A B f m,
  match m.2 with
  | Some a => (m.1 ++ (f a).1, (f a).2)
  | None => (m.1, None)
  end.

(** Dereferencing the iterator. *)
Definition deref (ids : list object_id_type) (first : nat)
  : access object_id_type :=
  ([first], ids !! first).

(** [while ( *first < id && first != last) ++first;]
    The recursion is on the slots from [first] to the end of the vector:
    [rest] is [drop first ids]. The element is read before the cursor is
    compared with [last]. *)
Fixpoint advance_from (rest : list object_id_type) (last : nat)
    (id : object_id_type) (first : nat) : access nat :=
  match rest with
  | [] => ([first], None)
  | x :: rest' =>
      if bool_decide (x < id) && bool_decide (first ≠ last)
      then ([first], Some tt) ;; advance_from rest' last id (S first)
      else ([first], Some first)
  end.

Definition advance (ids : list object_id_type) (last : nat)
    (id : object_id_type) (first : nat) : access nat :=
  advance_from (drop first ids) last id first.

(** The body both loops share, for one object of the stream:
<<
    while ( *first < id && first != last) ++first;
    if (id == *first) { ...; if (first != last) ++first; (selected) }
>>
    The result is whether the object is selected, and the cursor. *)
Definition cursor_step (ids : list object_id_type) (last : nat)
    (id : object_id_type) (first : nat) : access (bool * nat) :=
  first1 ← advance ids last id first;
  x ← deref ids first1;
  if bool_decide (id = x)
  then mret (true, if bool_decide (first1 ≠ last) then S first1 else first1)
  else mret (false, first1).

(** [std::copy_if] with a predicate that reads and moves the cursor: the
    elements the predicate accepts, in the order of the range. *)
Fixpoint copy_if {A} (pred : A → nat → access (bool * nat))
    (range : list A) (first : nat) : access (list A) :=
  match range with
  | [] => mret []
  | a :: range' =>
      '(selected, first') ← pred a first;
      out ← copy_if pred range' first';
      mret (if selected : bool then a :: out else out)
  end.

(** The Sorted-Merge Filter: the objects of a stream the cursor logic
    selects, [key] giving the identifier of an object. *)
Definition merge_filter {A} (key : A → object_id_type)
    (ids : list object_id_type) (last : nat) (stream : list A) (first : nat)
  : access (list A) :=
  copy_if (λ a, cursor_step ids last (key a)) stream first.

(** ** The three passes *)

Definition push_way_member (way_ids : list object_id_type)
    (rm : RelationMember) : list object_id_type :=
  if bool_decide (rm_type rm = it_way) then way_ids ++ [rm_ref rm]
  else way_ids.

(** Pass 1, the body of the loop over the relations. The state is what was
    written to the output so far and [way_ids]. *)
Definition pass1_step (cfg : config)
    (st : list entity * list object_id_type) (r : Relation)
  : list entity * list object_id_type :=
  if bool_decide (relation_id r ∈ noborder cfg) then st
  else
    let add_anyway := bool_decide (relation_id r ∈ yesborder cfg) in
    if add_anyway || has_tag (relation_tags r) "boundary" "administrative"
    then (st.1 ++ [ERelation r],
          fold_left push_way_member (relation_members r) st.2)
    else st.

Definition pass1 (cfg : config) (relations : list Relation)
  : list entity * list object_id_type :=
  fold_left (pass1_step cfg) relations ([], []).

Definition push_node_ref (node_ids : list object_id_type) (nr : NodeRef)
  : list object_id_type :=
  node_ids ++ [nr_ref nr].

(** What pass 2 writes for a selected way. *)
Definition rewrite_way (cfg : config) (w : Way) : Way :=
  match waymap cfg !! way_id w with
  | None => RewriteHandler.way w
  | Some tagmap => RewriteHandler.way_with w tagmap
  end.

(** Pass 2, the loop over the ways. The state is the cursor, the output
    buffer of the handler and [node_ids]. *)
Fixpoint pass2_loop (cfg : config) (way_ids : list object_id_type)
    (last : nat) (ways : list Way) (first : nat)
    (output_buffer : list Way) (node_ids : list object_id_type)
  : access (list Way * list object_id_type) :=
  match ways with
  | [] => mret (output_buffer, node_ids)
  | w :: ways' =>
      '(selected, first') ← cursor_step way_ids last (way_id w) first;
      if selected : bool then
        pass2_loop cfg way_ids last ways' first'
          (output_buffer ++ [rewrite_way cfg w])
          (fold_left push_node_ref (way_nodes w) node_ids)
      else pass2_loop cfg way_ids last ways' first' output_buffer node_ids
  end.

Definition pass2 (cfg : config) (collected : list object_id_type)
    (ways : list Way) : access (list Way * list object_id_type) :=
  let sorted := std_sort collected in
  let u := std_unique sorted in
  pass2_loop cfg u.1 u.2 ways 0%nat [] [].

(** Pass 3: [std::copy_if] over the nodes with the lambda as predicate. *)
Definition pass3 (collected : list object_id_type) (nodes : list Node)
  : access (list Node) :=
  let sorted := std_sort collected in
  let u := std_unique sorted in
  copy_if (λ n, cursor_step u.1 u.2 (node_id n)) nodes 0%nat.

(** ** The change file

    [json.hpp] (nlohmann::json) is included by the program but is not among
    the sources. The document type and the accessors [jsonize] calls are
    written here as that library documents them: an object is a map ordered
    by key, [find] on it is a lookup, [operator[]] on a null or on an object
    without the key gives null and on any other non-object throws,
    [get<bool>] throws on anything but a boolean. A number that is not an
    integer is kept as written, mantissa and decimal exponent. *)

#[warnings="-register-all"]
Inductive json :=
| JNull
| JBool (b : bool)
| JInt (z : Z)
| JFloat (mantissa exponent : Z)
| JString (s : string)
| JArray (items : list json)
| JObject (fields : gmap string json).

(** [jout[key]] *)
Definition json_index (j : json) (key : string) : option json :=
  match j with
  | JNull => Some JNull
  | JObject fields => Some (default JNull (fields !! key))
  | _ => None
  end.

(** [get<bool>()] *)
Definition get_bool (j : json) : option bool :=
  match j with
  | JBool b => Some b
  | _ => None
  end.

(** A range-for over an object visits the fields in ascending key order. *)
Definition field_key_le (a b : string * json) : Prop := String.le a.1 b.1.

Global Instance field_key_le_dec : RelDecision field_key_le.
Proof. intros a b. unfold field_key_le. apply _. Defined.

Definition json_fields (fields : gmap string json) : list (string * json) :=
  merge_sort field_key_le (map_to_list fields).

(** The body of a [try] block working on the three tables: the tables as
    they are when it ends, and [None] in place of the result when it ends
    by throwing. *)
Definition throwing (A : Type) : Type := config → option A * config.

Global Instance throwing_ret : MRet throwing := λ A a cfg, (Some a, cfg).

Global Instance throwing_bind : MBind throwing := λ A B f m cfg,
  match (m cfg).1 with
  | Some a => f a (m cfg).2
  | None => (None, (m cfg).2)
  end.

(** The value of a call that throws when it has none. *)
Definition try_get {A} (o : option A) : throwing A := λ cfg, (o, cfg).

Definition update (f : config → config) : throwing unit :=
  λ cfg, (Some tt, f cfg).

Fixpoint for_each {A} (body : A → throwing unit) (l : list A)
  : throwing unit :=
  match l with
  | [] => mret tt
  | x :: l' => body x ;; for_each body l'
  end.

Definition insert_yesborder (id : object_id_type) (cfg : config) : config :=
  {| waymap := waymap cfg;
     yesborder := {[ id ]} ∪ yesborder cfg;
     noborder := noborder cfg |}.

Definition insert_noborder (id : object_id_type) (cfg : config) : config :=
  {| waymap := waymap cfg;
     yesborder := yesborder cfg;
     noborder := {[ id ]} ∪ noborder cfg |}.

(** [waymap[id] = smap] *)
Definition assign_waymap (id : object_id_type) (smap : strmap)
    (cfg : config) : config :=
  {| waymap := <[ id := smap ]> (waymap cfg);
     yesborder := yesborder cfg;
     noborder := noborder cfg |}.

(** The three [clear()] of the catch block. *)
Definition clear_all (cfg : config) : config :=
  {| waymap := ∅; yesborder := ∅; noborder := ∅ |}.

(** The inner loop of the "ways" section, one field:
    [if (jt.key()!="osm_id" && jt->is_string()) smap[jt.key()]=...] *)
Definition smap_field (smap : strmap) (jt : string * json) : strmap :=
  match jt.2 with
  | JString s =>
      if bool_decide (jt.1 ≠ "osm_id") then <[ jt.1 := s ]> smap else smap
  | _ => smap
  end.

Definition entry_smap (fields : gmap string json) : strmap :=
  fold_left smap_field (json_fields fields) ∅.

Section jsonize.

(** [get<long>()]: the identifier a JSON value converts to, [None] when
    the conversion throws. Which values besides integers convert is left
    to the library; the program's behaviour is stated for any. *)
Variable get_long : json → option object_id_type.

(** A flag field of a "relations" entry: absent counts as false. *)
Definition flag_set (fields : gmap string json) (key : string)
  : throwing bool :=
  match fields !! key with
  | None => mret false
  | Some v => try_get (get_bool v)
  end.

Definition insert_if (flag : bool) (osm_id : json)
    (ins : object_id_type → config → config) : throwing unit :=
  if flag then id ← try_get (get_long osm_id); update (ins id)
  else mret tt.

Definition relations_entry (it : json) : throwing unit :=
  match it with
  | JObject fields =>
      match fields !! "osm_id" with
      | None => mret tt
      | Some osm_id =>
          wt ← flag_set fields "whitelist";
          insert_if wt osm_id insert_yesborder ;;
          (bk ← flag_set fields "blacklist";
           insert_if bk osm_id insert_noborder)
      end
  | _ => mret tt
  end.

Definition ways_entry (it : json) : throwing unit :=
  match it with
  | JObject fields =>
      match fields !! "osm_id" with
      | None => mret tt
      | Some osm_id =>
          let smap := entry_smap fields in
          id ← try_get (get_long osm_id);
          update (assign_waymap id smap)
      end
  | _ => mret tt
  end.

Definition section_loop (body : json → throwing unit) (section : json)
  : throwing unit :=
  match section with
  | JArray items => for_each body items
  | _ => mret tt
  end.

(** The [try] block of [jsonize]. [file] is what [i >> jout] reads from
    the path: [None] when the file cannot be read or is not a JSON
    document, in which case the read throws. *)
Definition jsonize_try (file : option json) : throwing unit :=
  jout ← try_get file;
  ro ← try_get (json_index jout "relations");
  section_loop relations_entry ro ;;
  (wo ← try_get (json_index jout "ways");
   section_loop ways_entry wo).

(** populates required and blanks on exception *)
Definition jsonize (file : option json) (cfg : config) : bool * config :=
  match (jsonize_try file cfg).1 with
  | Some _ => (true, (jsonize_try file cfg).2)
  | None => (false, clear_all (jsonize_try file cfg).2)
  end.

End jsonize.

(** ** The header and the output file *)

Record Box := MkBox { bottom_left : Location; top_right : Location }.

(** [osmium::Box{minx, miny, maxx, maxy}] with whole numbers of degrees. *)
Definition box_of_degrees (minx miny maxx maxy : Z) : Box :=
  {| bottom_left := MkLocation (minx * coordinate_precision)
                               (miny * coordinate_precision);
     top_right := MkLocation (maxx * coordinate_precision)
                             (maxy * coordinate_precision) |}.

(** [Location::valid()] *)
Definition location_valid (l : Location) : Prop :=
  -180 * coordinate_precision ≤ loc_x l ≤ 180 * coordinate_precision ∧
  -90 * coordinate_precision ≤ loc_y l ≤ 90 * coordinate_precision.

(** [Box::contains(location)] *)
Definition box_contains (b : Box) (l : Location) : Prop :=
  loc_x (bottom_left b) ≤ loc_x l ∧ loc_y (bottom_left b) ≤ loc_y l ∧
  loc_x l ≤ loc_x (top_right b) ∧ loc_y l ≤ loc_y (top_right b).

Record Header := MkHeader {
  header_options : gmap string string;
  header_boxes : list Box
}.

Definition header_set (key value : string) (h : Header) : Header :=
  {| header_options := <[ key := value ]> (header_options h);
     header_boxes := header_boxes h |}.

Definition header_add_box (b : Box) (h : Header) : Header :=
  {| header_options := header_options h;
     header_boxes := header_boxes h ++ [b] |}.

Record output_file := MkOutput {
  out_header : Header;
  out_entities : list entity
}.

(** ** main *)

(** Modelled from the spec: [return_codes.hpp] is not among the sources;
    the spec names three outcomes with distinct exit codes (success,
    command-line usage error, fatal error). *)
Inductive return_code :=
| return_code_ok
| return_code_cmdline
| return_code_fatal.

(** What is written to standard error: a text as it is, or a line of
    [vout]. In verbose mode [osmium::util::VerboseOutput] writes every line
    to [std::cerr] after the running time in brackets; [timed] stands for
    the line with that time before it. *)
Inductive message :=
| plain (text : string)
| timed (line : string).

(** What [getopt_long] returns for one option of the command line; for
    [-c] with it what the named file holds. For an option it does not
    know, or one that lacks its argument, [getopt_long] returns ['?'] after
    it has written a diagnostic of its own to standard error ([opterr] is
    never cleared and the option string does not start with a colon):
    [opt_other] carries that diagnostic. The long form [--changefile]
    written without a value, which hands a null pointer to [jsonize], is
    not modelled. *)
Inductive cmd_option :=
| opt_help
| opt_output (optarg : string)
| opt_verbose
| opt_changefile (content : option json)
| opt_version
| opt_other (diagnostic : string).

Record options := MkOptions {
  output_filename : string;
  verbose : bool;
  tables : config;
  no_json_err : bool
}.

Definition initial_options : options :=
  {| output_filename := "";
     verbose := false;
     tables := Config ∅ ∅ ∅;
     no_json_err := true |}.

(** An input file holds objects of the three kinds; a reader opened for one
    kind delivers the objects of that kind in file order. *)
Definition read_relations (infile : list entity) : list Relation :=
  omap (λ e, match e with ERelation r => Some r | _ => None end) infile.

Definition read_ways (infile : list entity) : list Way :=
  omap (λ e, match e with EWay w => Some w | _ => None end) infile.

Definition read_nodes (infile : list entity) : list Node :=
  omap (λ e, match e with ENode n => Some n | _ => None end) infile.

Definition newline : string := String (Ascii.ascii_of_nat 10) "".

(** Where the readers or the writer raise [osmium::io_error], if they do:
    when the writer is opened, before the first pass, or in one of the
    passes when [n] objects of its stream have been handled (at the end of
    the stream when it has fewer; closing the reader and flushing the buffer
    are the end of the stream). Whether and where the library raises it is
    not decided by the program; a run is given it. Exceptions of other types
    leave [main] uncaught and are not modelled. *)
Inductive io_place :=
| opening_writer
| reading_relations (n : nat)
| reading_ways (n : nat)
| reading_nodes (n : nat).

Record io_error := IoError { place : io_place; what : string }.

Definition raised_at_opening (e : option io_error) : option string :=
  match e with
  | Some (IoError opening_writer text) => Some text
  | _ => None
  end.

Definition raised_in_pass1 (e : option io_error) : option (nat * string) :=
  match e with
  | Some (IoError (reading_relations n) text) => Some (n, text)
  | _ => None
  end.

Definition raised_in_pass2 (e : option io_error) : option (nat * string) :=
  match e with
  | Some (IoError (reading_ways n) text) => Some (n, text)
  | _ => None
  end.

Definition raised_in_pass3 (e : option io_error) : option (nat * string) :=
  match e with
  | Some (IoError (reading_nodes n) text) => Some (n, text)
  | _ => None
  end.

(** The objects a loop has handled when it ends or is left by the
    exception. *)
Definition delivered {X} (raised : option (nat * string)) (stream : list X)
  : list X :=
  match raised with
  | Some (n, _) => take n stream
  | None => stream
  end.

(** [osmium::MemoryUsage]: current and peak memory in megabytes, zero where
    the platform does not tell. *)
Record MemoryUsage := MkMemoryUsage { current : Z; peak : Z }.

(** How a run ends: by [std::exit], by returning from [main] with the
    output file closed, or in undefined behaviour. [stderr] is what was
    written to standard error until then. *)
Inductive run :=
| Exit (code : return_code) (stderr : list message)
| Returned (stderr : list message) (written : output_file)
| Undefined (stderr : list message).

Definition the_header : Header :=
  header_add_box (box_of_degrees (-180) (-90) 180 90)
    (header_set "generator" "osmborder_filter" (MkHeader ∅ [])).

(** [vout << ...]: the lines reach standard error in verbose mode only. *)
Definition vout (verbose : bool) (lines : list string) : list message :=
  if verbose then timed <$> lines else [].

(** What the loop of pass 1 tells about one relation. *)
Definition pass1_vout (cfg : config) (relation : Relation) : list string :=
  if bool_decide (relation_id relation ∈ noborder cfg) then
    ["Rejected relation: " +:+ pretty (relation_id relation) +:+ " .."
       +:+ newline]
  else
    let add_anyway := bool_decide (relation_id relation ∈ yesborder cfg) in
    if add_anyway
       && negb (has_tag (relation_tags relation) "boundary" "administrative")
    then ["Added relation: " +:+ pretty (relation_id relation) +:+ " .."
            +:+ newline]
    else [].

(** The lines of [vout] up to the loop of pass 1 and in it, up to the loop
    of pass 2, up to the loop of pass 3, and after the passes. *)
Definition pass1_lines (cfg : config) (relations : list Relation)
  : list string :=
  ("Reading relations (1st pass through input file)..." +:+ newline)
    :: (relations ≫= pass1_vout cfg).

Definition pass2_lines : list string :=
  ["Preparing way ID list..." +:+ newline;
   "Reading ways (2nd pass through input file)..." +:+ newline].

Definition pass3_lines : list string :=
  ["Preparing node ID list..." +:+ newline;
   "Reading nodes (3rd pass through input file)..." +:+ newline].

Definition final_lines (mem : MemoryUsage) : list string :=
  ("All done." +:+ newline)
    :: if bool_decide (0 < current mem)
       then ["Memory used: current: " +:+ pretty (current mem)
               +:+ " MBytes" +:+ newline;
             "             peak:    " +:+ pretty (peak mem)
               +:+ " MBytes" +:+ newline]
       else [].

(** All lines of [vout] in a run that returns. *)
Definition run_lines (cfg : config) (relations : list Relation)
    (mem : MemoryUsage) : list string :=
  pass1_lines cfg relations ++ pass2_lines ++ pass3_lines ++ final_lines mem.

(** The handler of [osmium::io_error]. *)
Definition catch_io_error (stderr : list message) (text : string) : run :=
  Exit return_code_fatal
    (stderr ++ [plain ("io error: " +:+ text +:+ "'" +:+ newline)]).

(** The run from the header on, for options that passed the checks:
    the three passes inside the [try] block, its handler, and the last
    lines of [vout]. [stderr] is what the checks have written before. A
    pass that reads outside its vector before the exception is raised is
    undefined all the same. *)
Definition three_passes (verbose : bool) (cfg : config)
    (stderr : list message) (infile : list entity) (e : option io_error)
    (mem : MemoryUsage) : run :=
  match raised_at_opening e with
  | Some text => catch_io_error stderr text
  | None =>
      let relations := delivered (raised_in_pass1 e) (read_relations infile) in
      let p1 := pass1 cfg relations in
      let lines1 := pass1_lines cfg relations in
      match raised_in_pass1 e with
      | Some (_, text) => catch_io_error (stderr ++ vout verbose lines1) text
      | None =>
          let lines2 := lines1 ++ pass2_lines in
          let ways := delivered (raised_in_pass2 e) (read_ways infile) in
          match (pass2 cfg p1.2 ways).2, raised_in_pass2 e with
          | None, _ => Undefined (stderr ++ vout verbose lines2)
          | Some _, Some (_, text) =>
              catch_io_error (stderr ++ vout verbose lines2) text
          | Some p2, None =>
              let lines3 := lines2 ++ pass3_lines in
              let nodes := delivered (raised_in_pass3 e) (read_nodes infile) in
              match (pass3 p2.2 nodes).2, raised_in_pass3 e with
              | None, _ => Undefined (stderr ++ vout verbose lines3)
              | Some _, Some (_, text) =>
                  catch_io_error (stderr ++ vout verbose lines3) text
              | Some p3, None =>
                  Returned
                    (stderr ++ vout verbose (lines3 ++ final_lines mem))
                    {| out_header := the_header;
                       out_entities :=
                         p1.1 ++ (EWay <$> p2.1) ++ (ENode <$> p3) |}
              end
          end
      end
  end.

Definition json_warning : message :=
  plain ("changefile gave error, not using" +:+ newline).

Section main.

Variable get_long : json → option object_id_type.

(** The [switch] in the option loop: the options after this one, or, when
    the program exits here, the exit code and what standard error holds
    then. The texts of [--help] and [--version] go to standard output. *)
Definition option_case (o : options) (c : cmd_option)
  : return_code * list message + options :=
  match c with
  | opt_help => inl (return_code_ok, [])
  | opt_output optarg =>
      inr {| output_filename := optarg; verbose := verbose o;
             tables := tables o; no_json_err := no_json_err o |}
  | opt_verbose =>
      inr {| output_filename := output_filename o; verbose := true;
             tables := tables o; no_json_err := no_json_err o |}
  | opt_changefile content =>
      let r := jsonize get_long content (tables o) in
      inr {| output_filename := output_filename o; verbose := verbose o;
             tables := r.2; no_json_err := r.1 |}
  | opt_version => inl (return_code_ok, [])
  | opt_other diagnostic => inl (return_code_fatal, [plain diagnostic])
  end.

Fixpoint option_loop (o : options) (argv : list cmd_option)
  : return_code * list message + options :=
  match argv with
  | [] => inr o
  | c :: argv' =>
      match option_case o c with
      | inl exit => inl exit
      | inr o' => option_loop o' argv'
      end
  end.

(** [argv] are the options, [operands] the number of arguments left
    after them, [infile] the content of the input file, [e] the
    [io_error] the libraries raise, if any, and [mem] what
    [osmium::MemoryUsage] reports at the end. *)
Definition main (argv : list cmd_option) (operands : nat)
    (infile : list entity) (e : option io_error) (mem : MemoryUsage) : run :=
  match option_loop initial_options argv with
  | inl (code, stderr) => Exit code stderr
  | inr o =>
      let stderr := if no_json_err o then [] else [json_warning] in
      if bool_decide (output_filename o = "") then
        Exit return_code_cmdline
          (stderr
           ++ [plain ("Missing -o/--output=OSMFILE option" +:+ newline)])
      else if bool_decide (operands ≠ 1%nat) then
        Exit return_code_cmdline
          (stderr
           ++ [plain ("Usage: osmborder_filter [OPTIONS] OSMFILE"
                      +:+ newline)])
      else three_passes (verbose o) (tables o) stderr infile e mem
  end.

End main.

(** ** The selection the specification describes for pass 1 *)

(** A relation is taken when it is not denied and is either allowed or
    tagged boundary=administrative. *)
Definition spec_selected (cfg : config) (r : Relation) : Prop :=
  (relation_id r ∉ noborder cfg) ∧
  (relation_id r ∈ yesborder cfg ∨
   has_tag (relation_tags r) "boundary" "administrative" = true).

Global Instance spec_selected_dec cfg r : Decision (spec_selected cfg r).
Proof. unfold spec_selected. apply _. Defined.

(** The identifiers of the members of kind way, in member order. *)
Definition way_member_refs (r : Relation) : list object_id_type :=
  rm_ref <$> filter (λ rm, rm_type rm = it_way) (relation_members r).

(** ** When the reads at [last] are harmless

    [R] are the targets ahead of the cursor, [stale] the slots of the vector
    from [last] on. An object of the stream is a risk when the vector has
    no slot at [last] or when that slot holds the object's identifier; the
    stream is covered when every such object has a target at or above its
    identifier ahead of the cursor, so that the cursor is not at [last] when
    the object is compared. *)
Definition covered {X} (key : X → object_id_type)
    (stale R : list object_id_type) (stream : list X) : Prop :=
  ∀ a, a ∈ stream →
    head stale = None ∨ head stale = Some (key a) →
    ∃ r, r ∈ R ∧ key a ≤ r.

(** The node identifiers pass 2 collects from a way. *)
Definition node_refs (w : Way) : list object_id_type :=
  nr_ref <$> way_nodes w.

(** ** Options that neither exit nor read a change file *)

Definition plain_option (c : cmd_option) : Prop :=
  match c with
  | opt_output _ | opt_verbose => True
  | _ => False
  end.

(** ** The identifier of a "ways" entry *)

(** The way identifier of an entry of the "ways" array: that of its
    [osm_id] field when the entry is an object with such a field and the
    field converts. *)
Definition entry_id (get_long : json → option object_id_type) (it : json)
  : option object_id_type :=
  match it with
  | JObject fields => fields !! "osm_id" ≫= get_long
  | _ => None
  end.

(** ** Reading a change file, in words

    The definitions of this section say what a document has to look like
    and what it lists; the properties relate [jsonize] to them. *)

(** The entries of a top-level section: those of the array under the key,
    none when the key is missing or holds something else. *)
Definition section_items (top : gmap string json) (key : string)
  : list json :=
  match top !! key with
  | Some (JArray items) => items
  | _ => []
  end.

(** An entry lists an identifier under a flag when it is an object whose
    [osm_id] converts to the identifier and whose flag is the boolean
    true. *)
Definition listed (get_long : json → option object_id_type) (flag : string)
    (it : json) (id : object_id_type) : Prop :=
  ∃ fields osm_id,
    it = JObject fields ∧ fields !! "osm_id" = Some osm_id ∧
    fields !! flag = Some (JBool true) ∧ get_long osm_id = Some id.

(** A flag of a "relations" entry is in order when it is absent or a
    boolean, and when it is true the [osm_id] of the entry converts. *)
Definition flag_ok (get_long : json → option object_id_type)
    (fields : gmap string json) (osm_id : json) (flag : string) : Prop :=
  match fields !! flag with
  | None | Some (JBool false) => True
  | Some (JBool true) => is_Some (get_long osm_id)
  | Some _ => False
  end.

Definition relation_entry_ok (get_long : json → option object_id_type)
    (it : json) : Prop :=
  match it with
  | JObject fields =>
      match fields !! "osm_id" with
      | None => True
      | Some osm_id =>
          flag_ok get_long fields osm_id "whitelist" ∧
          flag_ok get_long fields osm_id "blacklist"
      end
  | _ => True
  end.

Definition way_entry_ok (get_long : json → option object_id_type)
    (it : json) : Prop :=
  match it with
  | JObject fields =>
      match fields !! "osm_id" with
      | None => True
      | Some osm_id => is_Some (get_long osm_id)
      end
  | _ => True
  end.

(** A change file is in order when it holds a document that is null or an
    object all of whose section entries are in order. *)
Definition document_ok (get_long : json → option object_id_type)
    (file : option json) : Prop :=
  match file with
  | Some JNull => True
  | Some (JObject top) =>
      Forall (relation_entry_ok get_long) (section_items top "relations") ∧
      Forall (way_entry_ok get_long) (section_items top "ways")
  | _ => False
  end.

(** An option that makes the program exit. *)
Definition exiting_option (c : cmd_option) : Prop :=
  match c with
  | opt_help | opt_version | opt_other _ => True
  | _ => False
  end.

(** ** Sample data *)

Definition no_location : Location := MkLocation 0 0.

Definition sample_way : Way :=
  {| way_id := 42;
     way_meta := ObjectMeta 3 1001 1500000000 77 "mapper" true;
     way_tags := [("name", "Y"); ("highway", "Z")];
     way_nodes := [MkNodeRef 1 no_location; MkNodeRef 2 no_location;
                   MkNodeRef 3 no_location] |}.

Definition sample_override : strmap := {[ "name" := "X" ]}.

Definition sample_tables : config :=
  {| waymap := {[ 42 := sample_override ]};
     yesborder := {[ 7; 101 ]};
     noborder := {[ 7 ]} |}.

Definition sample_node (id : object_id_type) : Node :=
  {| node_id := id; node_meta := default_meta; node_tags := [];
     node_location := no_location |}.

Definition sample_relation (id : object_id_type) (tags : TagList)
    (ways : list object_id_type) : Relation :=
  {| relation_id := id; relation_meta := default_meta; relation_tags := tags;
     relation_members := (λ w, MkMember it_way w "outer") <$> ways |}.

Definition boundary_relation : Relation :=
  sample_relation 100 [("boundary", "administrative")] [200].

Definition way_200 : Way :=
  {| way_id := 200; way_meta := default_meta; way_tags := [];
     way_nodes := [MkNodeRef 1 no_location; MkNodeRef 2 no_location;
                   MkNodeRef 3 no_location] |}.

Definition way_300 : Way :=
  {| way_id := 300; way_meta := default_meta; way_tags := [];
     way_nodes := [MkNodeRef 4 no_location] |}.

(** Relation 100 (boundary=administrative) with way 200 as member, way 200
    with nodes 1, 2, 3, and these nodes. *)
Definition boundary_file : list entity :=
  [ERelation boundary_relation; EWay way_200;
   ENode (sample_node 1); ENode (sample_node 2); ENode (sample_node 3)].

(** The same file with one more way, 300, that no relation refers to. *)
Definition boundary_file_with_unrelated_way : list entity :=
  [ERelation boundary_relation; EWay way_200; EWay way_300;
   ENode (sample_node 1); ENode (sample_node 2); ENode (sample_node 3)].

Definition way_150 : Way :=
  {| way_id := 150; way_meta := default_meta; way_tags := [];
     way_nodes := [MkNodeRef 0 no_location] |}.

(** A closed way: its first node is also its last. *)
Definition ring_200 : Way :=
  {| way_id := 200;
     way_meta := ObjectMeta 2 900 1400000000 5 "surveyor" true;
     way_tags := [("admin_level", "4")];
     way_nodes := [MkNodeRef 1 no_location; MkNodeRef 2 no_location;
                   MkNodeRef 3 no_location; MkNodeRef 1 no_location] |}.

(** Relation 100 with the ring as outer and as inner member, the ring,
    ways 150 and 300 that no relation refers to, and nodes 0 to 4. *)
Definition ring_file : list entity :=
  [ERelation (sample_relation 100 [("boundary", "administrative")] [200; 200]);
   EWay way_150; EWay ring_200; EWay way_300;
   ENode (sample_node 0); ENode (sample_node 1); ENode (sample_node 2);
   ENode (sample_node 3); ENode (sample_node 4)].

(** A conversion for [get<long>()] that accepts integers only. *)
Definition get_long_integer (j : json) : option object_id_type :=
  match j with
  | JInt z => Some z
  | _ => None
  end.

(** A document without sections the program reads: "relations" holds an
    object, not an array, and there is no "ways". *)
Definition document_without_sections : gmap string json :=
  {[ "relations" := JObject {[ "osm_id" := JInt 1 ]};
     "note" := JString "x" ]}.

(** Two entries for way 42, the second without the name of the first. *)
Definition first_entry : gmap string json :=
  {[ "osm_id" := JInt 42; "name" := JString "A"; "lanes" := JInt 2 ]}.

Definition second_entry : gmap string json :=
  {[ "osm_id" := JInt 42; "ref" := JString "B" ]}.

Definition sample_ways : list json :=
  [JObject first_entry; JObject second_entry].

Definition sample_document : gmap string json :=
  {[ "relations" :=
       JArray [JObject {[ "osm_id" := JInt 7; "whitelist" := JBool true;
                          "blacklist" := JBool true ]}];
     "ways" := JArray sample_ways ]}.

Definition sample_document_tables : config :=
  {| waymap := {[ 42 := {[ "ref" := "B" ]} ]};
     yesborder := {[ 7 ]};
     noborder := {[ 7 ]} |}.

(** * Properties *)

(** ** The rewrite handler *)

Lemma fold_add_tag (ts acc : TagList) :
  fold_left RewriteHandler.add_tag ts acc = acc ++ ts.
Proof.
  revert acc. induction ts as [|t ts IH]; intros acc; simpl.
  - by rewrite app_nil_r.
  - rewrite IH. unfold RewriteHandler.add_tag. by rewrite <- app_assoc.
Qed.

Lemma copy_tags_id (ts : TagList) : RewriteHandler.copy_tags ts = ts.
Proof. unfold RewriteHandler.copy_tags. by rewrite fold_add_tag. Qed.

Lemma copy_tags_with_app (ts : TagList) (m : strmap) :
  RewriteHandler.copy_tags_with ts m = ts ++ strmap_items m.
Proof. unfold RewriteHandler.copy_tags_with. by rewrite !fold_add_tag. Qed.

Lemma strmap_items_perm (m : strmap) : strmap_items m ≡ₚ map_to_list m.
Proof. unfold strmap_items. apply merge_sort_Permutation. Qed.

Lemma elem_of_strmap_items (m : strmap) k v :
  (k, v) ∈ strmap_items m ↔ m !! k = Some v.
Proof. rewrite strmap_items_perm. apply elem_of_map_to_list. Qed.

(** Every tag of the way is still there after the override, also one whose
    key the override has; every pair of the override is there too. *)
Lemma copy_tags_with_elem_of (ts : TagList) (m : strmap) k v :
  (k, v) ∈ RewriteHandler.copy_tags_with ts m ↔ (k, v) ∈ ts ∨ m !! k = Some v.
Proof.
  rewrite copy_tags_with_app, elem_of_app. by rewrite elem_of_strmap_items.
Qed.

(** A reader that takes the first tag of a key, as [get_value_by_key] does,
    still sees the old value of a key the way already had. *)
Lemma copy_tags_with_first_value (ts : TagList) (m : strmap) k v :
  get_value_by_key ts k = Some v →
  get_value_by_key (RewriteHandler.copy_tags_with ts m) k = Some v.
Proof.
  rewrite copy_tags_with_app. unfold get_value_by_key.
  induction ts as [|t ts IH]; simpl; [done|].
  case_bool_decide; [done|]. apply IH.
Qed.

(** When the override has a key the way already has, the written tag list
    has that key twice. *)
Lemma copy_tags_with_collision (ts : TagList) (m : strmap) k v v' :
  (k, v) ∈ ts → m !! k = Some v' →
  ¬ NoDup (RewriteHandler.copy_tags_with ts m).*1.
Proof.
  intros Hts Hm. rewrite copy_tags_with_app, fmap_app.
  intros (_ & Hdisj & _)%NoDup_app. apply (Hdisj k).
  - apply list_elem_of_fmap. by exists (k, v).
  - apply list_elem_of_fmap. exists (k, v'). split; [done|].
    by apply elem_of_strmap_items.
Qed.

(** C3. With tags name=Y, highway=Z on the way and the override name=X, the
    way written by the override handler has three tags: the two old ones,
    name=Y included, and name=X behind them. The old value of the colliding
    key is not replaced, and it is the one [get_value_by_key] finds. *)
Theorem override_keeps_colliding_tag :
  way_tags (rewrite_way sample_tables sample_way)
    = [("name", "Y"); ("highway", "Z"); ("name", "X")] ∧
  get_value_by_key (way_tags (rewrite_way sample_tables sample_way)) "name"
    = Some "Y".
Proof. split; vm_compute; reflexivity. Qed.

(** C7. The way written by the override handler has the identifier and the
    node references of the way read, in the same order, and so has the way
    pass 2 writes in either mode; the way written with an override differs
    from the way written without one in its tags only. *)
Theorem override_preserves_structure (cfg : config) (w : Way) (tagmap : strmap) :
  way_id (RewriteHandler.way_with w tagmap) = way_id w ∧
  way_nodes (RewriteHandler.way_with w tagmap) = way_nodes w ∧
  way_id (rewrite_way cfg w) = way_id w ∧
  way_nodes (rewrite_way cfg w) = way_nodes w ∧
  RewriteHandler.way_with w tagmap =
    {| way_id := way_id (RewriteHandler.way w);
       way_meta := way_meta (RewriteHandler.way w);
       way_tags := way_tags w ++ strmap_items tagmap;
       way_nodes := way_nodes (RewriteHandler.way w) |}.
Proof.
  split_and!; try done.
  - unfold rewrite_way. by destruct (waymap cfg !! way_id w).
  - unfold rewrite_way. by destruct (waymap cfg !! way_id w).
  - unfold RewriteHandler.way_with. by rewrite copy_tags_with_app.
Qed.

(** The handler copies no other attribute: version, changeset, timestamp
    and user of a written way are those of a new object. *)
Lemma rewrite_way_meta (cfg : config) (w : Way) :
  way_meta (rewrite_way cfg w) = default_meta.
Proof. unfold rewrite_way. destruct (waymap cfg !! way_id w); done. Qed.

(** ** Tags *)

Lemma get_value_by_key_elem_of (tags : TagList) k v :
  NoDup tags.*1 → get_value_by_key tags k = Some v ↔ (k, v) ∈ tags.
Proof.
  unfold get_value_by_key. induction tags as [|[k' v'] tags IH]; intros Hnd.
  - simpl. split; [done|by intros ?%elem_of_nil].
  - apply NoDup_cons in Hnd as [Hk' Hnd]. simpl.
    rewrite elem_of_cons. case_bool_decide as Hk; simpl in Hk.
    + subst k'. simpl. split; [intros [= ->]; by left|].
      intros [[= ->]|Hin]; [done|].
      destruct Hk'. apply list_elem_of_fmap. by exists (k, v).
    + rewrite IH by done. split; [by right|].
      intros [[= -> ->]|?]; done.
Qed.

(** On a tag list with unique keys [has_tag] says that the list carries
    the tag. *)
Lemma has_tag_carries (tags : TagList) k v :
  NoDup tags.*1 → has_tag tags k v = true ↔ (k, v) ∈ tags.
Proof.
  intros Hnd. unfold has_tag.
  destruct (get_value_by_key tags k) as [v'|] eqn:Hget.
  - apply (get_value_by_key_elem_of tags k v' Hnd) in Hget.
    rewrite bool_decide_eq_true. split; [by intros <-|].
    intros Hin. apply (get_value_by_key_elem_of tags k v Hnd) in Hin.
    apply (get_value_by_key_elem_of tags k v' Hnd) in Hget. congruence.
  - split; [done|].
    intros Hin%(get_value_by_key_elem_of tags k v Hnd). congruence.
Qed.

(** ** Pass 1 *)

Lemma fold_push_way_member (ms : list RelationMember) (acc : list object_id_type) :
  fold_left push_way_member ms acc
  = acc ++ (rm_ref <$> filter (λ rm, rm_type rm = it_way) ms).
Proof.
  revert acc. induction ms as [|m ms IH]; intros acc; simpl.
  - by rewrite app_nil_r.
  - rewrite IH. unfold push_way_member. rewrite filter_cons.
    case_bool_decide; case_decide; try done.
    by rewrite <- app_assoc.
Qed.

Lemma pass1_step_spec (cfg : config) st (r : Relation) :
  pass1_step cfg st r =
  if decide (spec_selected cfg r)
  then (st.1 ++ [ERelation r], st.2 ++ way_member_refs r)
  else st.
Proof.
  unfold pass1_step, way_member_refs.
  rewrite fold_push_way_member.
  destruct (decide (spec_selected cfg r)) as [[Hno Hsel]|Hnot].
  - rewrite bool_decide_eq_false_2 by done.
    destruct Hsel as [Hyes|Htag].
    + by rewrite bool_decide_eq_true_2.
    + rewrite Htag. by rewrite orb_true_r.
  - case_bool_decide as Hno; [done|].
    case_bool_decide as Hyes; simpl.
    + destruct Hnot. split; [done|by left].
    + destruct (has_tag _ _ _) eqn:Ht; [|done].
      destruct Hnot. split; [done|by right].
Qed.

Lemma pass1_fold (cfg : config) (rels : list Relation) st :
  fold_left (pass1_step cfg) rels st =
  (st.1 ++ (ERelation <$> filter (spec_selected cfg) rels),
   st.2 ++ (filter (spec_selected cfg) rels ≫= way_member_refs)).
Proof.
  revert st. induction rels as [|r rels IH]; intros [out ids]; simpl.
  - by rewrite !app_nil_r.
  - rewrite IH, pass1_step_spec, filter_cons.
    destruct (decide (spec_selected cfg r)); simpl; [|done].
    by rewrite <- !app_assoc.
Qed.

(** C4. Pass 1 writes exactly the relations that are not in the deny-set
    and are in the allow-set or tagged boundary=administrative, unchanged
    and in input order, and [way_ids] receives the way members of exactly
    these relations. *)
Theorem pass1_selection (cfg : config) (rels : list Relation) :
  pass1 cfg rels =
  (ERelation <$> filter (spec_selected cfg) rels,
   filter (spec_selected cfg) rels ≫= way_member_refs).
Proof. unfold pass1. by rewrite pass1_fold. Qed.

(** Deny wins: a relation whose identifier is in both sets is not written
    and adds nothing to [way_ids]. *)
Lemma pass1_deny_precedence (cfg : config) st (r : Relation) :
  relation_id r ∈ yesborder cfg → relation_id r ∈ noborder cfg →
  pass1_step cfg st r = st.
Proof.
  intros _ Hno. rewrite pass1_step_spec, decide_False; [done|].
  intros [? _]. done.
Qed.

(** ** Sorting and deduplicating the collected identifiers *)

Lemma std_sort_sorted (ids : list object_id_type) :
  StronglySorted Z.le (std_sort ids).
Proof. unfold std_sort. apply StronglySorted_merge_sort; apply _. Qed.

Lemma std_sort_perm (ids : list object_id_type) : std_sort ids ≡ₚ ids.
Proof. unfold std_sort. apply merge_sort_Permutation. Qed.

Lemma unique_from_subset prev ids x :
  x ∈ unique_from prev ids → x ∈ ids.
Proof.
  revert prev. induction ids as [|y ids IH]; intros prev; simpl.
  - by intros ?%elem_of_nil.
  - case_bool_decide.
    + intros ?%IH. by right.
    + intros [->|?%IH]%elem_of_cons; [left|right]; done.
Qed.

Lemma unique_from_complete prev ids x :
  x ∈ ids → x = prev ∨ x ∈ unique_from prev ids.
Proof.
  revert prev. induction ids as [|y ids IH]; intros prev; simpl.
  - by intros ?%elem_of_nil.
  - intros [->|Hin]%elem_of_cons.
    + case_bool_decide; [by left|]. right. by left.
    + case_bool_decide.
      * by apply IH.
      * destruct (IH y Hin) as [->|?]; right; [by left|by right].
Qed.

Lemma unique_prefix_elem_of ids x : x ∈ unique_prefix ids ↔ x ∈ ids.
Proof.
  destruct ids as [|y ids]; simpl; [done|].
  rewrite !elem_of_cons. split.
  - intros [->|?%unique_from_subset]; auto.
  - intros [->|Hin]; [by left|].
    destruct (unique_from_complete y ids x Hin); auto.
Qed.

Lemma unique_from_strict prev ids :
  StronglySorted Z.le (prev :: ids) →
  StronglySorted Z.lt (prev :: unique_from prev ids).
Proof.
  revert prev. induction ids as [|y ids IH]; intros prev Hs; simpl.
  - repeat constructor.
  - apply StronglySorted_cons in Hs as [Hle Hs].
    apply Forall_cons in Hle as [Hy Hle].
    case_bool_decide as Heq.
    + subst y. by apply IH.
    + specialize (IH y Hs). apply StronglySorted_cons.
      split; [|done].
      apply StronglySorted_cons in IH as [Hlt _].
      constructor; [lia|].
      eapply Forall_impl; [exact Hlt|]. intros z ?. simpl in *. lia.
Qed.

Lemma unique_prefix_strict ids :
  StronglySorted Z.le ids → StronglySorted Z.lt (unique_prefix ids).
Proof.
  destruct ids as [|x ids]; simpl; [constructor|]. apply unique_from_strict.
Qed.

Lemma unique_from_length prev ids :
  (length (unique_from prev ids) ≤ length ids)%nat.
Proof.
  revert prev. induction ids as [|y ids IH]; intros prev; simpl; [lia|].
  case_bool_decide; simpl; [specialize (IH prev)|specialize (IH y)]; lia.
Qed.

Lemma unique_prefix_length ids :
  (length (unique_prefix ids) ≤ length ids)%nat.
Proof.
  destruct ids as [|x ids]; simpl; [lia|].
  pose proof (unique_from_length x ids). lia.
Qed.

(** The range from the start of the vector to [last]. *)
Lemma std_unique_range ids :
  take (std_unique ids).2 (std_unique ids).1 = unique_prefix ids.
Proof. unfold std_unique. simpl. by rewrite take_app_length. Qed.

Lemma std_unique_length ids : length (std_unique ids).1 = length ids.
Proof.
  unfold std_unique. simpl. rewrite length_app, length_drop.
  pose proof (unique_prefix_length ids). lia.
Qed.

(** C6. The range the cursor of pass 2 and of pass 3 runs over, from the
    start of the sorted vector to the iterator [std::unique] returned, is
    strictly ascending (sorted, no duplicates) and holds the identifiers
    collected by the pass before, whatever was collected and in whatever
    order; both passes start their loop on this range. *)
Theorem target_list_sorted_unique (cfg : config)
    (collected : list object_id_type) (ways : list Way) (nodes : list Node) :
  let u := std_unique (std_sort collected) in
  StronglySorted Z.lt (take u.2 u.1) ∧
  (∀ id, id ∈ take u.2 u.1 ↔ id ∈ collected) ∧
  pass2 cfg collected ways = pass2_loop cfg u.1 u.2 ways 0%nat [] [] ∧
  pass3 collected nodes = merge_filter node_id u.1 u.2 nodes 0%nat.
Proof.
  intros u. unfold u. rewrite std_unique_range. split_and!.
  - apply unique_prefix_strict, std_sort_sorted.
  - intros id. rewrite unique_prefix_elem_of. by rewrite std_sort_perm.
  - done.
  - done.
Qed.

(** ** The cursor at the end of the range *)

Lemma advance_at_last ids last id :
  advance ids last id last =
  ([last], match ids !! last with Some _ => Some last | None => None end).
Proof.
  unfold advance.
  destruct (ids !! last) as [x|] eqn:Hx.
  - rewrite (drop_S _ _ _ Hx). simpl.
    rewrite (bool_decide_eq_false_2 (last ≠ last)) by (intros ?; done).
    by rewrite andb_false_r.
  - apply lookup_ge_None in Hx. by rewrite drop_ge.
Qed.

Lemma cursor_step_at_last ids last id :
  cursor_step ids last id last =
  match ids !! last with
  | Some x => ([last; last], Some (bool_decide (id = x), last))
  | None => ([last], None)
  end.
Proof.
  unfold cursor_step. rewrite advance_at_last.
  destruct (ids !! last) as [x|] eqn:Hx; [|done].
  unfold mbind, access_bind, deref. simpl. rewrite Hx. simpl.
  rewrite (bool_decide_eq_false_2 (last ≠ last)) by (intros ?; done).
  by case_bool_decide.
Qed.

(** C2. With the cursor at [last], the step for the next object of the
    stream dereferences [last], the position one past the end of the target
    range, before it compares the cursor with [last]. When that position is
    also the end of the vector (nothing was removed by [std::unique], or the
    vector is empty) the read is outside the vector; with an empty vector
    this happens for the first object of the stream. *)
Theorem cursor_at_end_is_dereferenced (ids : list object_id_type)
    (last : nat) (id : object_id_type) :
  (∃ t, (cursor_step ids last id last).1 = last :: t) ∧
  cursor_step ids (length ids) id (length ids) = ([length ids], None) ∧
  merge_filter (λ x, x) [] 0 [id] 0 = ([0%nat], None).
Proof.
  split_and!.
  - rewrite cursor_step_at_last. destruct (ids !! last); eauto.
  - rewrite cursor_step_at_last.
    by rewrite (proj2 (lookup_ge_None ids (length ids))).
  - done.
Qed.

(** C1. A file with no boundary relation and one way: [way_ids] is empty,
    pass 2 dereferences the start of the empty vector for the way, and the
    run is undefined where the filter should select nothing; the same for
    pass 3 with an empty [node_ids] and one node. A file with relation 100,
    its way 200 and an unrelated way 300: [way_ids] is the one element 200,
    the cursor is at [last] after way 200, and for way 300 pass 2
    dereferences the end of the vector. *)
Theorem merge_filter_undefined_inputs (mem : MemoryUsage) :
  pass2 sample_tables [] [sample_way] = ([0%nat], None) ∧
  pass3 [] [sample_node 1] = ([0%nat], None) ∧
  main get_long_integer [opt_output "out.pbf"] 1 [EWay sample_way] None mem
    = Undefined [] ∧
  pass2 (Config ∅ ∅ ∅) [200] [way_200; way_300]
    = ([0%nat; 0%nat; 1%nat], None) ∧
  main get_long_integer [opt_output "out.pbf"] 1
    boundary_file_with_unrelated_way None mem = Undefined [].
Proof. split_and!; vm_compute; reflexivity. Qed.

(** Without the unrelated way the same run returns, with the relation, the
    way and its three nodes written. *)
Example boundary_file_run (mem : MemoryUsage) :
  main get_long_integer [opt_output "out.pbf"] 1 boundary_file None mem
  = Returned []
      {| out_header := the_header;
         out_entities :=
           [ERelation boundary_relation; EWay way_200;
            ENode (sample_node 1); ENode (sample_node 2);
            ENode (sample_node 3)] |}.
Proof. vm_compute. reflexivity. Qed.

(** ** The cursor inside the range

    The vector is [P ++ R ++ stale]: [P] are the targets the cursor has
    passed, [R] those still ahead, [stale] the slots behind [last]. *)

Lemma access_bind_result {A B} (m : access A) (f : A → access B) a :
  m.2 = Some a → (m ≫= f).2 = (f a).2.
Proof. unfold mbind, access_bind. by intros ->. Qed.

Lemma access_bind_undefined {A B} (m : access A) (f : A → access B) :
  m.2 = None → (m ≫= f).2 = None.
Proof. unfold mbind, access_bind. by intros ->. Qed.

Lemma deref_bind_result {B} ids i x (f : object_id_type → access B) :
  ids !! i = Some x → (deref ids i ≫= f).2 = (f x).2.
Proof. intros H. by apply access_bind_result. Qed.

Lemma advance_from_target R stale last id first :
  last = (first + length R)%nat →
  ∃ A B, R = A ++ B ∧ Forall (λ x, x < id) A ∧
    (∀ b, head B = Some b → id ≤ b) ∧
    (advance_from (R ++ stale) last id first).2 =
      match B, stale with
      | [], [] => None
      | _, _ => Some (first + length A)%nat
      end.
Proof.
  revert first. induction R as [|x R IH]; intros first Hlast; simpl in *.
  - exists [], []. split_and!; [done|constructor|done|].
    destruct stale as [|h stale]; simpl; [done|].
    rewrite (bool_decide_eq_false_2 (first ≠ last)) by (intros ?; lia).
    rewrite andb_false_r. simpl. f_equal. lia.
  - rewrite (bool_decide_eq_true_2 (first ≠ last)) by lia.
    rewrite andb_true_r. case_bool_decide as Hx.
    + destruct (IH (S first)) as (A & B & -> & HA & HB & Hr); [lia|].
      exists (x :: A), B. split_and!; [done|by constructor|done|].
      rewrite (access_bind_result _ _ tt) by done. rewrite Hr.
      destruct B, stale; simpl; try done; f_equal; lia.
    + exists [], (x :: R). split_and!; [done|constructor| |].
      * intros b [= <-]. lia.
      * simpl. f_equal. lia.
Qed.

Lemma cursor_step_target P R stale id :
  ∃ A B, R = A ++ B ∧ Forall (λ x, x < id) A ∧
    (∀ b, head B = Some b → id ≤ b) ∧
    (cursor_step (P ++ R ++ stale) (length (P ++ R)) id (length P)).2 =
      match B with
      | b :: _ =>
          Some (bool_decide (id = b),
                if bool_decide (id = b) then length (P ++ A ++ [b])
                else length (P ++ A))
      | [] =>
          match stale with
          | [] => None
          | h :: _ => Some (bool_decide (id = h), length (P ++ R))
          end
      end.
Proof.
  destruct (advance_from_target R stale (length (P ++ R)) id (length P))
    as (A & B & -> & HA & HB & Hr).
  { by rewrite length_app. }
  exists A, B. split_and!; [done..|].
  assert (Hlook : (P ++ (A ++ B) ++ stale) !! (length P + length A)%nat
                  = head (B ++ stale)).
  { rewrite lookup_app_r by lia.
    replace (length P + length A - length P)%nat with (length A) by lia.
    rewrite <- app_assoc. rewrite lookup_app_r by lia.
    rewrite Nat.sub_diag. by destruct (B ++ stale). }
  destruct B as [|b B]; simpl in Hr, Hlook;
    unfold cursor_step, advance; rewrite drop_app_length.
  - destruct stale as [|h stale].
    + by apply access_bind_undefined.
    + rewrite (access_bind_result _ _ _ Hr).
      rewrite (deref_bind_result _ _ h) by done.
      rewrite app_nil_r, length_app.
      rewrite (bool_decide_eq_false_2 (_ ≠ _)) by (intros ?; lia).
      repeat case_bool_decide; first [reflexivity | done].
  - rewrite (access_bind_result _ _ _ Hr).
    rewrite (deref_bind_result _ _ b) by done.
    rewrite !length_app. simpl.
    rewrite (bool_decide_eq_true_2 (_ ≠ _)) by lia.
    repeat case_bool_decide; try done; cbn; f_equal; f_equal; lia.
Qed.

Lemma filter_ext_elem_of {X} (P Q : X → Prop)
    `{∀ x, Decision (P x)} `{∀ x, Decision (Q x)} (l : list X) :
  (∀ x, x ∈ l → P x ↔ Q x) → filter P l = filter Q l.
Proof.
  induction l as [|x l IH]; intros Hl; [done|].
  rewrite !filter_cons, IH by (intros y ?; apply Hl; by right).
  destruct (decide (P x)) as [HP|HP], (decide (Q x)) as [HQ|HQ]; try done.
  - destruct HQ. by apply (Hl x); [left|].
  - destruct HP. by apply (Hl x); [left|].
Qed.

Lemma copy_if_cons_result {X} (pred : X → nat → access (bool * nat))
    (a : X) (range : list X) first selected first' :
  (pred a first).2 = Some (selected, first') →
  (copy_if pred (a :: range) first).2 =
  (λ out, if selected : bool then a :: out else out)
    <$> (copy_if pred range first').2.
Proof.
  intros Hp. simpl. rewrite (access_bind_result _ _ _ Hp).
  destruct (copy_if pred range first').2 as [out|] eqn:Hout.
  - by rewrite (access_bind_result _ _ _ Hout).
  - by rewrite access_bind_undefined.
Qed.

Lemma copy_if_cons_undefined {X} (pred : X → nat → access (bool * nat))
    (a : X) (range : list X) first :
  (pred a first).2 = None → (copy_if pred (a :: range) first).2 = None.
Proof. intros Hp. simpl. by rewrite access_bind_undefined. Qed.

Local Ltac same_list := rewrite ?app_nil_r, <- ?app_assoc; reflexivity.

Section merge_filter_correct.

Context {X : Type} (key : X → object_id_type).
Variable stale : list object_id_type.

Lemma merge_filter_target (stream : list X) :
  ∀ P R ids last first,
    ids = P ++ R ++ stale → last = length (P ++ R) → first = length P →
    StronglySorted Z.lt R →
    StronglySorted Z.lt (key <$> stream) →
    covered key stale R stream →
    (merge_filter key ids last stream first).2
    = Some (filter (λ a, key a ∈ R) stream).
Proof.
  induction stream as [|a stream IH];
    intros P R ids last first -> -> -> HR HS Hcov; [done|].
  simpl in HS. apply StronglySorted_cons in HS as [Hlt HS].
  rewrite Forall_fmap in Hlt.
  assert (Hlater : ∀ a', a' ∈ stream → key a < key a').
  { intros a' Ha'. by eapply Forall_forall in Hlt. }
  destruct (cursor_step_target P R stale (key a))
    as (A & B & -> & HA & HB & Hr).
  assert (HbelowA : ∀ r, r ∈ A → r < key a).
  { intros r Hin. by eapply Forall_forall in HA. }
  apply StronglySorted_app in HR as (HAB & _ & HsB).
  unfold merge_filter in *.
  destruct B as [|b B].
  - (* the cursor reaches [last] *)
    assert (Huncovered : ¬ (head stale = None ∨ head stale = Some (key a))).
    { intros Hh. destruct (Hcov a) as (r & Hr' & Hle); [by left|done|].
      rewrite app_nil_r in Hr'. apply HbelowA in Hr'. lia. }
    destruct stale as [|h stale'] eqn:Hstale.
    { destruct Huncovered. by left. }
    rewrite (copy_if_cons_result (λ x, cursor_step _ _ (key x)) _ _ _ _ _ Hr).
    rewrite bool_decide_eq_false_2
      by (intros Heq; apply Huncovered; right; simpl; by rewrite Heq).
    rewrite filter_cons_False by (rewrite app_nil_r; intros ?%HbelowA; lia).
    rewrite (IH (P ++ A) []);
      [|same_list|same_list|same_list|constructor|done|].
    + simpl. f_equal. apply filter_ext_elem_of. intros a' Ha'.
      rewrite app_nil_r. split; [by intros ?%elem_of_nil|].
      intros Hin%HbelowA. specialize (Hlater a' Ha'). lia.
    + intros a' Ha' Hh.
      destruct (Hcov a') as (r & Hr' & Hle); [by right|done|].
      rewrite app_nil_r in Hr'. apply HbelowA in Hr'.
      specialize (Hlater a' Ha'). lia.
  - (* a target at or above the identifier is ahead *)
    specialize (HB b eq_refl).
    apply StronglySorted_cons in HsB as [HbB HsB].
    rewrite (copy_if_cons_result (λ x, cursor_step _ _ (key x)) _ _ _ _ _ Hr).
    case_bool_decide as Heq.
    + (* selected *)
      subst b.
      rewrite filter_cons_True
        by (apply elem_of_app; right; by left).
      rewrite (IH (P ++ A ++ [key a]) B);
        [|same_list|same_list|same_list|done|done|].
      * simpl. f_equal. f_equal. apply filter_ext_elem_of. intros a' Ha'.
        specialize (Hlater a' Ha').
        rewrite elem_of_app, elem_of_cons. split; [tauto|].
        intros [Hin%HbelowA|[Hin|Hin]]; [lia|lia|done].
      * intros a' Ha' Hh. specialize (Hlater a' Ha').
        destruct (Hcov a') as (r & Hr' & Hle); [by right|done|].
        exists r. split; [|done].
        apply elem_of_app in Hr' as [Hin%HbelowA|[->|Hin]%elem_of_cons];
          [lia|lia|done].
    + (* not selected: the target ahead is above *)
      rewrite filter_cons_False.
      2:{ rewrite elem_of_app, elem_of_cons.
          intros [?%HbelowA|[?|Hin]]; [lia|done|].
          eapply Forall_forall in HbB; [|exact Hin]. simpl in HbB. lia. }
      rewrite (IH (P ++ A) (b :: B));
        [|same_list|same_list|same_list|by apply StronglySorted_cons|done|].
      * simpl. f_equal. apply filter_ext_elem_of. intros a' Ha'.
        specialize (Hlater a' Ha').
        rewrite elem_of_app. split; [tauto|].
        intros [Hin%HbelowA|Hin]; [lia|done].
      * intros a' Ha' Hh. specialize (Hlater a' Ha').
        destruct (Hcov a') as (r & Hr' & Hle); [by right|done|].
        exists r. split; [|done].
        apply elem_of_app in Hr' as [Hin%HbelowA|Hin]; [lia|done].
Qed.

End merge_filter_correct.

(** The filter on a range [T] followed by stale slots, cursor at the start:
    when [T] and the stream are strictly ascending and the stream is
    covered, the objects selected are those with an identifier in [T], in
    stream order. *)
Lemma merge_filter_selects {X} (key : X → object_id_type)
    (T stale : list object_id_type) (stream : list X) :
  StronglySorted Z.lt T →
  StronglySorted Z.lt (key <$> stream) →
  covered key stale T stream →
  (merge_filter key (T ++ stale) (length T) stream 0).2
  = Some (filter (λ a, key a ∈ T) stream).
Proof.
  intros HT HS Hcov.
  by apply (merge_filter_target key stale stream [] T).
Qed.

(** The filter on a vector without stale slots: an object of the stream with
    an identifier above every target makes the run undefined. *)
Lemma merge_filter_past_end {X} (key : X → object_id_type)
    (stream : list X) (a : X) :
  ∀ P R,
    a ∈ stream → Forall (λ t, t < key a) (P ++ R) →
    (merge_filter key (P ++ R) (length (P ++ R)) stream (length P)).2 = None.
Proof.
  unfold merge_filter.
  induction stream as [|x stream IH]; intros P R Hin Hbelow.
  { by apply elem_of_nil in Hin. }
  destruct (cursor_step_target P R [] (key x)) as (A & B & -> & HA & HB & Hr).
  rewrite app_nil_r in Hr.
  destruct B as [|b B].
  { by apply copy_if_cons_undefined. }
  apply elem_of_cons in Hin as [->|Hin].
  { specialize (HB b eq_refl).
    assert (b < key x); [|lia].
    eapply Forall_forall in Hbelow; [exact Hbelow|].
    rewrite !elem_of_app, elem_of_cons. auto. }
  rewrite (copy_if_cons_result (λ x, cursor_step _ _ (key x)) _ _ _ _ _ Hr).
  case_bool_decide.
  - replace (P ++ A ++ b :: B) with ((P ++ A ++ [b]) ++ B) in * by same_list.
    by rewrite IH.
  - replace (P ++ A ++ b :: B) with ((P ++ A) ++ b :: B) in * by same_list.
    by rewrite IH.
Qed.

(** ** Passes 2 and 3 on the collected identifiers *)

Lemma strictly_sorted_NoDup (l : list Z) : StronglySorted Z.lt l → NoDup l.
Proof.
  induction 1 as [|x l _ IH Hx]; constructor; [|done].
  intros Hin. eapply Forall_forall in Hx; [|exact Hin]. lia.
Qed.

Lemma unique_from_full prev ids :
  length (unique_from prev ids) = length ids → unique_from prev ids = ids.
Proof.
  revert prev. induction ids as [|y ids IH]; intros prev; simpl; [done|].
  case_bool_decide; simpl.
  - pose proof (unique_from_length prev ids). lia.
  - intros [= Hlen]. by rewrite IH.
Qed.

(** Without a slot behind [last], nothing was removed: the collected
    identifiers were all different. *)
Lemma no_stale_NoDup (collected : list object_id_type) :
  drop (length (unique_prefix (std_sort collected))) (std_sort collected) = [] →
  NoDup collected.
Proof.
  intros Hdrop. rewrite <- std_sort_perm.
  pose proof (std_sort_sorted collected) as Hs.
  pose proof (unique_prefix_strict _ Hs) as Hu.
  pose proof (unique_prefix_length (std_sort collected)) as Hle.
  apply (f_equal length) in Hdrop. rewrite length_drop in Hdrop. simpl in Hdrop.
  destruct (std_sort collected) as [|x l]; [constructor|].
  simpl in *. rewrite unique_from_full in Hu by lia.
  by apply strictly_sorted_NoDup.
Qed.

(** A slot behind [last] holds one of the targets. *)
Lemma stale_head_target (collected : list object_id_type) h :
  head (drop (length (unique_prefix (std_sort collected))) (std_sort collected))
    = Some h →
  h ∈ unique_prefix (std_sort collected).
Proof.
  intros Hh. apply unique_prefix_elem_of.
  apply head_Some_elem_of in Hh. by eapply subseteq_drop.
Qed.

Lemma collected_covered {X} (key : X → object_id_type)
    (collected : list object_id_type) (stream : list X) :
  ¬ NoDup collected ∨
    (∀ a, a ∈ stream → ∃ c, c ∈ collected ∧ key a ≤ c) →
  covered key
    (drop (length (unique_prefix (std_sort collected))) (std_sort collected))
    (unique_prefix (std_sort collected)) stream.
Proof.
  intros Hcase a Ha Hh.
  destruct Hcase as [Hdup|Hcov].
  - destruct Hh as [Hnone|Hsome].
    + destruct Hdup. apply no_stale_NoDup.
      by destruct (drop _ _).
    + exists (key a). split; [|lia]. by apply stale_head_target.
  - destruct (Hcov a Ha) as (c & Hc & Hle). exists c. split; [|done].
    apply unique_prefix_elem_of. by rewrite std_sort_perm.
Qed.

Lemma filter_target_collected {X} (key : X → object_id_type)
    (collected : list object_id_type) (stream : list X) :
  filter (λ a, key a ∈ unique_prefix (std_sort collected)) stream
  = filter (λ a, key a ∈ collected) stream.
Proof.
  apply filter_ext_elem_of. intros a _.
  rewrite unique_prefix_elem_of. by rewrite std_sort_perm.
Qed.

(** X16. Pass 3 when the node stream is strictly ascending and either some
    node identifier was collected twice or no node of the stream lies above
    all collected identifiers: the nodes written are those whose identifier
    was collected, in stream order. *)
Lemma pass3_selects (collected : list object_id_type) (nodes : list Node) :
  StronglySorted Z.lt (node_id <$> nodes) →
  ¬ NoDup collected ∨
    (∀ n, n ∈ nodes → ∃ c, c ∈ collected ∧ node_id n ≤ c) →
  (pass3 collected nodes).2
  = Some (filter (λ n, node_id n ∈ collected) nodes).
Proof.
  intros HS Hcase. unfold pass3, std_unique. simpl.
  rewrite <- filter_target_collected.
  apply (merge_filter_selects node_id).
  - apply unique_prefix_strict, std_sort_sorted.
  - done.
  - by apply collected_covered.
Qed.

Lemma fold_push_node_ref (nrs : list NodeRef) (acc : list object_id_type) :
  fold_left push_node_ref nrs acc = acc ++ (nr_ref <$> nrs).
Proof.
  revert acc. induction nrs as [|nr nrs IH]; intros acc; simpl.
  - by rewrite app_nil_r.
  - rewrite IH. unfold push_node_ref. by rewrite <- app_assoc.
Qed.

(** The loop of pass 2 selects as the filter does; it writes the rewritten
    ways and collects their node references. *)
Lemma pass2_loop_merge_filter (cfg : config) ids last (ways : list Way) :
  ∀ first out node_ids,
    (pass2_loop cfg ids last ways first out node_ids).2 =
    (λ sel, (out ++ (rewrite_way cfg <$> sel), node_ids ++ (sel ≫= node_refs)))
      <$> (merge_filter way_id ids last ways first).2.
Proof.
  unfold merge_filter.
  induction ways as [|w ways IH]; intros first out node_ids.
  - simpl. by rewrite !app_nil_r.
  - destruct (cursor_step ids last (way_id w) first).2 as [[sel first']|] eqn:Hc.
    + rewrite (copy_if_cons_result (λ x, cursor_step _ _ (way_id x)) _ _ _ _ _ Hc).
      simpl. rewrite (access_bind_result _ _ _ Hc).
      destruct sel; rewrite IH;
        destruct (copy_if _ ways first').2 as [sel'|]; simpl; try done.
      rewrite fold_push_node_ref. unfold node_refs at 2.
      by rewrite <- !app_assoc.
    + rewrite (copy_if_cons_undefined (λ x, cursor_step _ _ (way_id x))) by done.
      simpl. by rewrite access_bind_undefined.
Qed.

(** X15. Pass 2 when the way stream is strictly ascending and either some
    way identifier was collected twice or no way of the stream lies above
    all collected identifiers: the ways written are the rewritten ways whose
    identifier was collected, in stream order, and [node_ids] receives their
    node references. *)
Lemma pass2_selects (cfg : config) (collected : list object_id_type)
    (ways : list Way) :
  StronglySorted Z.lt (way_id <$> ways) →
  ¬ NoDup collected ∨
    (∀ w, w ∈ ways → ∃ c, c ∈ collected ∧ way_id w ≤ c) →
  (pass2 cfg collected ways).2
  = Some (rewrite_way cfg <$> filter (λ w, way_id w ∈ collected) ways,
          filter (λ w, way_id w ∈ collected) ways ≫= node_refs).
Proof.
  intros HS Hcase. unfold pass2, std_unique. simpl.
  rewrite pass2_loop_merge_filter.
  rewrite <- filter_target_collected.
  rewrite (merge_filter_selects way_id).
  - done.
  - apply unique_prefix_strict, std_sort_sorted.
  - done.
  - by apply collected_covered.
Qed.

(** X17. Pass 2 and pass 3 when the collected identifiers are all different
    and the stream has an object above all of them: the cursor is
    dereferenced at the end of the vector. *)
Lemma passes_past_end (cfg : config) (collected : list object_id_type) :
  NoDup collected →
  (∀ ways w, w ∈ ways → Forall (λ c, c < way_id w) collected →
     (pass2 cfg collected ways).2 = None) ∧
  (∀ nodes n, n ∈ nodes → Forall (λ c, c < node_id n) collected →
     (pass3 collected nodes).2 = None).
Proof.
  intros Hnd.
  assert (Hfull : (std_unique (std_sort collected)).1 = std_sort collected
                  ∧ (std_unique (std_sort collected)).2
                    = length (std_sort collected)).
  { unfold std_unique. simpl.
    assert (Hs : StronglySorted Z.lt (std_sort collected)).
    { pose proof (std_sort_sorted collected) as Hle.
      assert (Hnd' : NoDup (std_sort collected)) by by rewrite std_sort_perm.
      clear Hnd. induction Hle as [|x l Hl IH Hx]; constructor.
      - apply IH. by apply NoDup_cons in Hnd' as [_ ?].
      - apply NoDup_cons in Hnd' as [Hx' _].
        apply Forall_forall. intros y Hy.
        eapply Forall_forall in Hx; [|exact Hy].
        assert (x ≠ y) by (by intros ->). lia. }
    assert (Hu : unique_prefix (std_sort collected) = std_sort collected).
    { destruct (std_sort collected) as [|x l]; [done|]. simpl. f_equal.
      clear Hnd. revert x Hs. induction l as [|y l IH]; intros x Hs; [done|].
      simpl. apply StronglySorted_cons in Hs as [Hx Hs].
      apply Forall_cons in Hx as [Hxy _].
      rewrite bool_decide_eq_false_2 by lia. f_equal. by apply IH. }
    rewrite Hu, drop_all, app_nil_r. done. }
  destruct Hfull as [Hbuf Hlast].
  assert (Hbelow : ∀ k, Forall (λ c, c < k) collected →
                        Forall (λ c, c < k) (std_sort collected)).
  { intros k Hk. by rewrite std_sort_perm. }
  split.
  - intros ways w Hw Hall. unfold pass2. cbv zeta.
    rewrite pass2_loop_merge_filter, Hbuf, Hlast.
    pose proof (merge_filter_past_end way_id ways w [] (std_sort collected)
                  Hw (Hbelow _ Hall)) as Hend.
    assert (Hend' : (merge_filter way_id (std_sort collected)
                       (length (std_sort collected)) ways 0%nat).2 = None)
      by exact Hend.
    by rewrite Hend'.
  - intros nodes n Hn Hall. unfold pass3. cbv zeta. rewrite Hbuf, Hlast.
    apply (merge_filter_past_end node_id nodes n [] (std_sort collected)
             Hn (Hbelow _ Hall)).
Qed.

(** ** The change file *)

Lemma throwing_bind_returns {A B} (m : throwing A) (f : A → throwing B)
    cfg a cfg1 :
  m cfg = (Some a, cfg1) → (m ≫= f) cfg = f a cfg1.
Proof. unfold mbind, throwing_bind. by intros ->. Qed.

Lemma throwing_bind_throws {A B} (m : throwing A) (f : A → throwing B)
    cfg cfg1 :
  m cfg = (None, cfg1) → (m ≫= f) cfg = (None, cfg1).
Proof. unfold mbind, throwing_bind. by intros ->. Qed.

Lemma throwing_bind_inv {A B} (m : throwing A) (f : A → throwing B)
    cfg b cfg' :
  (m ≫= f) cfg = (Some b, cfg') →
  ∃ a cfg1, m cfg = (Some a, cfg1) ∧ f a cfg1 = (Some b, cfg').
Proof.
  unfold mbind, throwing_bind.
  destruct (m cfg) as [[a|] cfg1] eqn:Hm; simpl; [eauto|done].
Qed.

(** Whether a block throws does not depend on the tables it starts with. *)
Lemma throwing_bind_oblivious {A B} (m : throwing A) (f : A → throwing B) :
  (∀ c1 c2, (m c1).1 = (m c2).1) →
  (∀ a c1 c2, (f a c1).1 = (f a c2).1) →
  ∀ c1 c2, ((m ≫= f) c1).1 = ((m ≫= f) c2).1.
Proof.
  intros Hm Hf c1 c2. unfold mbind, throwing_bind.
  rewrite (Hm c1 c2). destruct (m c2).1; [apply Hf|done].
Qed.

Lemma for_each_oblivious {A} (body : A → throwing unit) (l : list A) :
  (∀ x c1 c2, (body x c1).1 = (body x c2).1) →
  ∀ c1 c2, (for_each body l c1).1 = (for_each body l c2).1.
Proof.
  intros Hbody. induction l as [|x l IH]; [done|].
  simpl. apply throwing_bind_oblivious; [apply Hbody|by intros _].
Qed.

Section jsonize_facts.

Variable get_long : json → option object_id_type.

Lemma flag_set_oblivious fields key c1 c2 :
  (flag_set fields key c1).1 = (flag_set fields key c2).1.
Proof. unfold flag_set. by destruct (fields !! key). Qed.

Lemma insert_if_oblivious flag osm_id ins c1 c2 :
  (insert_if get_long flag osm_id ins c1).1
  = (insert_if get_long flag osm_id ins c2).1.
Proof.
  unfold insert_if. destruct flag; [|done].
  revert c1 c2. apply throwing_bind_oblivious; done.
Qed.

Lemma relations_entry_oblivious it c1 c2 :
  (relations_entry get_long it c1).1 = (relations_entry get_long it c2).1.
Proof.
  unfold relations_entry. destruct it as [| | | | | |fields]; try done.
  destruct (fields !! "osm_id"); [|done].
  revert c1 c2. apply throwing_bind_oblivious.
  { intros. apply flag_set_oblivious. }
  intros wt. apply throwing_bind_oblivious.
  { intros. apply insert_if_oblivious. }
  intros _. apply throwing_bind_oblivious.
  { intros. apply flag_set_oblivious. }
  intros bk c1 c2. apply insert_if_oblivious.
Qed.

Lemma ways_entry_oblivious it c1 c2 :
  (ways_entry get_long it c1).1 = (ways_entry get_long it c2).1.
Proof.
  unfold ways_entry. destruct it as [| | | | | |fields]; try done.
  destruct (fields !! "osm_id"); [|done].
  revert c1 c2. apply throwing_bind_oblivious; done.
Qed.

Lemma section_loop_oblivious body section :
  (∀ x c1 c2, (body x c1).1 = (body x c2).1) →
  ∀ c1 c2, (section_loop body section c1).1 = (section_loop body section c2).1.
Proof.
  intros Hbody. unfold section_loop.
  destruct section; try done. by apply for_each_oblivious.
Qed.

Lemma jsonize_try_oblivious file c1 c2 :
  (jsonize_try get_long file c1).1 = (jsonize_try get_long file c2).1.
Proof.
  unfold jsonize_try. revert c1 c2.
  apply throwing_bind_oblivious; [done|]. intros jout.
  apply throwing_bind_oblivious; [done|]. intros ro.
  apply throwing_bind_oblivious.
  { apply section_loop_oblivious, relations_entry_oblivious. }
  intros _. apply throwing_bind_oblivious; [done|]. intros wo.
  apply section_loop_oblivious, ways_entry_oblivious.
Qed.

(** A file that cannot be read, or that is no JSON document. *)
Lemma jsonize_try_unreadable cfg : jsonize_try get_long None cfg = (None, cfg).
Proof. done. Qed.

Lemma jsonize_throws file cfg :
  (jsonize_try get_long file cfg).1 = None →
  jsonize get_long file cfg = (false, Config ∅ ∅ ∅).
Proof. unfold jsonize. by intros ->. Qed.

End jsonize_facts.

(** ** The run after the checks *)

(** When no [io_error] is raised the run is the three passes on the whole
    streams. *)
Lemma three_passes_no_error verbose cfg stderr infile mem :
  three_passes verbose cfg stderr infile None mem =
  let p1 := pass1 cfg (read_relations infile) in
  let lines1 := pass1_lines cfg (read_relations infile) in
  match (pass2 cfg p1.2 (read_ways infile)).2 with
  | None => Undefined (stderr ++ vout verbose (lines1 ++ pass2_lines))
  | Some p2 =>
      match (pass3 p2.2 (read_nodes infile)).2 with
      | None =>
          Undefined
            (stderr ++ vout verbose ((lines1 ++ pass2_lines) ++ pass3_lines))
      | Some p3 =>
          Returned
            (stderr
             ++ vout verbose (run_lines cfg (read_relations infile) mem))
            {| out_header := the_header;
               out_entities := p1.1 ++ (EWay <$> p2.1) ++ (ENode <$> p3) |}
      end
  end.
Proof.
  unfold three_passes, run_lines. cbn [raised_at_opening raised_in_pass1
    raised_in_pass2 raised_in_pass3 delivered]. cbv zeta.
  destruct (pass2 _ _ _).2 as [p2|]; [|done].
  destruct (pass3 _ _).2 as [p3|]; [|done].
  by rewrite <- !app_assoc.
Qed.

(** A run that returns has met no [io_error]. *)
Lemma three_passes_returned_no_error verbose cfg stderr infile e mem
    stderr' written :
  three_passes verbose cfg stderr infile e mem = Returned stderr' written →
  e = None.
Proof.
  unfold three_passes.
  destruct e as [[[| n | n | n] text]|]; cbn [raised_at_opening
    raised_in_pass1 raised_in_pass2 raised_in_pass3 delivered]; cbv zeta;
    try done.
  - by destruct (pass2 _ _ _).2.
  - destruct (pass2 _ _ _).2; [|done]. by destruct (pass3 _ _).2.
Qed.

(** A run that exits after the checks has met an [io_error]: the exit is
    the handler's, with the fatal code and its message last on standard
    error, after the lines of [vout] written until then. *)
Lemma three_passes_exit_inv verbose cfg stderr infile e mem code stderr' :
  three_passes verbose cfg stderr infile e mem = Exit code stderr' →
  code = return_code_fatal ∧
  ∃ raised lines,
    e = Some raised ∧
    stderr' = stderr ++ vout verbose lines
              ++ [plain ("io error: " +:+ what raised +:+ "'" +:+ newline)].
Proof.
  unfold three_passes, catch_io_error.
  destruct e as [[[| n | n | n] text]|]; cbn [raised_at_opening
    raised_in_pass1 raised_in_pass2 raised_in_pass3 delivered]; cbv zeta.
  - intros [= <- <-]. split; [done|].
    exists (IoError opening_writer text), []. split; [done|].
    by destruct verbose.
  - intros [= <- <-]. split; [done|].
    eexists (IoError (reading_relations n) text), _. split; [done|].
    by rewrite <- app_assoc.
  - destruct (pass2 _ _ _).2; [|done]. intros [= <- <-]. split; [done|].
    eexists (IoError (reading_ways n) text), _. split; [done|].
    by rewrite <- app_assoc.
  - destruct (pass2 _ _ _).2; [|done]. destruct (pass3 _ _).2; [|done].
    intros [= <- <-]. split; [done|].
    eexists (IoError (reading_nodes n) text), _. split; [done|].
    by rewrite <- app_assoc.
  - destruct (pass2 _ _ _).2; [|done]. by destruct (pass3 _ _).2.
Qed.

(** A verbose run with the sample tables on a file of three relations:
    relation 7 is denied, relation 101 is allowed and has no tag, relation
    100 is tagged. *)
Example verbose_run_lines :
  three_passes true sample_tables []
    [ERelation (sample_relation 7 [("boundary", "administrative")] []);
     ERelation (sample_relation 101 [] []);
     ERelation boundary_relation] None (MkMemoryUsage 0 0)
  = Returned
      [timed ("Reading relations (1st pass through input file)..."
              +:+ newline);
       timed ("Rejected relation: 7 .." +:+ newline);
       timed ("Added relation: 101 .." +:+ newline);
       timed ("Preparing way ID list..." +:+ newline);
       timed ("Reading ways (2nd pass through input file)..." +:+ newline);
       timed ("Preparing node ID list..." +:+ newline);
       timed ("Reading nodes (3rd pass through input file)..." +:+ newline);
       timed ("All done." +:+ newline)]
      {| out_header := the_header;
         out_entities :=
           [ERelation (sample_relation 101 [] []);
            ERelation boundary_relation] |}.
Proof. vm_compute. reflexivity. Qed.

(** The same file when the reader of the first pass raises an [io_error]
    after two relations, and when the writer cannot be opened. *)
Example io_error_run :
  three_passes true sample_tables [json_warning]
    [ERelation (sample_relation 7 [("boundary", "administrative")] []);
     ERelation (sample_relation 101 [] []);
     ERelation boundary_relation]
    (Some (IoError (reading_relations 2) "PBF error")) (MkMemoryUsage 0 0)
  = Exit return_code_fatal
      [json_warning;
       timed ("Reading relations (1st pass through input file)..."
              +:+ newline);
       timed ("Rejected relation: 7 .." +:+ newline);
       timed ("Added relation: 101 .." +:+ newline);
       plain ("io error: PBF error'" +:+ newline)] ∧
  three_passes true sample_tables [json_warning] [EWay sample_way]
    (Some (IoError opening_writer "unsupported format")) (MkMemoryUsage 0 0)
  = Exit return_code_fatal
      [json_warning; plain ("io error: unsupported format'" +:+ newline)].
Proof. split; vm_compute; reflexivity. Qed.

Section option_loop_facts.

Variable get_long : json → option object_id_type.

Lemma option_loop_app o argv1 argv2 :
  option_loop get_long o (argv1 ++ argv2) =
  match option_loop get_long o argv1 with
  | inl code => inl code
  | inr o' => option_loop get_long o' argv2
  end.
Proof.
  revert o. induction argv1 as [|c argv1 IH]; intros o; simpl; [done|].
  destruct (option_case get_long o c); [done|apply IH].
Qed.

Lemma option_loop_plain o argv :
  Forall plain_option argv →
  ∃ o', option_loop get_long o argv = inr o' ∧
        tables o' = tables o ∧ no_json_err o' = no_json_err o.
Proof.
  revert o. induction argv as [|c argv IH]; intros o Hplain; simpl.
  - by exists o.
  - apply Forall_cons in Hplain as [Hc Hplain].
    destruct c; try done; simpl.
    + destruct (IH {| output_filename := optarg; verbose := verbose o;
                      tables := tables o; no_json_err := no_json_err o |}
                  Hplain) as (o' & -> & ? & ?).
      by exists o'.
    + destruct (IH {| output_filename := output_filename o; verbose := true;
                      tables := tables o; no_json_err := no_json_err o |}
                  Hplain) as (o' & -> & ? & ?).
      by exists o'.
Qed.

End option_loop_facts.

(** C5. When the [try] block of [jsonize] throws, whatever the tables held
    and wherever it throws, [jsonize] returns false with the three tables
    empty. When the last change file of the command line is such a file and
    no option makes the program exit, the option loop ends with empty
    tables, and with an output name and one operand [main] goes on to the
    three passes with these empty tables and the warning on standard
    error. *)
Theorem jsonize_failure_is_not_fatal
    (get_long : json → option object_id_type)
    (file : option json) (cfg : config) :
  (jsonize_try get_long file cfg).1 = None →
  jsonize get_long file cfg = (false, Config ∅ ∅ ∅) ∧
  ∀ before after o1 infile e mem,
    option_loop get_long initial_options before = inr o1 →
    Forall plain_option after →
    ∃ o,
      option_loop get_long initial_options
        (before ++ opt_changefile file :: after) = inr o ∧
      tables o = Config ∅ ∅ ∅ ∧
      no_json_err o = false ∧
      (output_filename o ≠ "" →
       main get_long (before ++ opt_changefile file :: after) 1 infile e mem
       = three_passes (verbose o) (Config ∅ ∅ ∅) [json_warning] infile
           e mem).
Proof.
  intros Hthrow. split; [by apply jsonize_throws|].
  intros before after o1 infile e mem Hbefore Hafter.
  assert (Hfile : jsonize get_long file (tables o1) = (false, Config ∅ ∅ ∅)).
  { apply jsonize_throws.
    by rewrite (jsonize_try_oblivious get_long file _ cfg). }
  destruct (option_loop_plain get_long
              {| output_filename := output_filename o1; verbose := verbose o1;
                 tables := Config ∅ ∅ ∅; no_json_err := false |}
              after Hafter) as (o & Ho & Htables & Herr).
  simpl in Htables, Herr.
  assert (Hloop : option_loop get_long initial_options
                    (before ++ opt_changefile file :: after) = inr o).
  { rewrite option_loop_app, Hbefore. simpl. by rewrite Hfile. }
  exists o. split_and!; [done..|].
  intros Hout. unfold main. rewrite Hloop, Htables, Herr.
  rewrite bool_decide_eq_false_2 by done.
  by rewrite bool_decide_eq_false_2 by (intros Hn; by apply Hn).
Qed.

Lemma jsonize_failure_is_not_fatal_witness :
  (jsonize_try get_long_integer None sample_tables).1 = None ∧
  jsonize get_long_integer None sample_tables = (false, Config ∅ ∅ ∅).
Proof.
  split; [reflexivity|].
  apply (jsonize_failure_is_not_fatal get_long_integer None sample_tables).
  reflexivity.
Defined.

(** A change file that cannot be read, given after the output name: the run
    on the sample file is the run with empty tables plus the warning. *)
Example unreadable_change_file_run (mem : MemoryUsage) :
  main get_long_integer [opt_output "out.pbf"; opt_changefile None] 1
    boundary_file None mem
  = Returned [json_warning]
      {| out_header := the_header;
         out_entities :=
           [ERelation boundary_relation; EWay way_200;
            ENode (sample_node 1); ENode (sample_node 2);
            ENode (sample_node 3)] |}.
Proof. vm_compute. reflexivity. Qed.

(** A document whose top level is an array, a flag that is not a boolean,
    an identifier that does not convert: each makes the block throw. *)
Example jsonize_try_throws_examples :
  (jsonize_try get_long_integer (Some (JArray [])) sample_tables).1 = None ∧
  (jsonize_try get_long_integer
     (Some (JObject {[ "relations" :=
        JArray [JObject {[ "osm_id" := JInt 1;
                           "whitelist" := JString "yes" ]}] ]}))
     sample_tables).1 = None ∧
  (jsonize_try get_long_integer
     (Some (JObject {[ "ways" :=
        JArray [JObject {[ "osm_id" := JString "42";
                           "name" := JString "N" ]}] ]}))
     sample_tables).1 = None.
Proof. split_and!; vm_compute; reflexivity. Qed.

(** ** The "ways" section *)

Lemma json_fields_perm (fields : gmap string json) :
  json_fields fields ≡ₚ map_to_list fields.
Proof. unfold json_fields. apply merge_sort_Permutation. Qed.

Lemma fold_smap_field_lookup (l : list (string * json)) (acc : strmap) k :
  NoDup l.*1 →
  fold_left smap_field l acc !! k =
  match (list_to_map l : gmap string json) !! k with
  | Some (JString s) => if bool_decide (k ≠ "osm_id") then Some s else acc !! k
  | _ => acc !! k
  end.
Proof.
  revert acc. induction l as [|[k' j] l IH]; intros acc Hnd; [done|].
  apply NoDup_cons in Hnd as [Hk' Hnd]. simpl.
  rewrite IH by done.
  destruct (decide (k = k')) as [->|Hne].
  - rewrite lookup_insert_eq.
    rewrite (proj1 (not_elem_of_list_to_map l k')) by done.
    unfold smap_field. simpl. destruct j; try done.
    destruct (bool_decide (k' ≠ "osm_id")); [|done].
    by rewrite lookup_insert_eq.
  - rewrite lookup_insert_ne by done.
    assert (Hacc : smap_field acc (k', j) !! k = acc !! k).
    { unfold smap_field. simpl. destruct j; try done.
      destruct (bool_decide (k' ≠ "osm_id")); [|done].
      by rewrite lookup_insert_ne. }
    by rewrite Hacc.
Qed.

(** The record built for an entry: the fields other than [osm_id] whose
    value is a string, under their names; nothing else. *)
Lemma entry_smap_lookup (fields : gmap string json) k v :
  entry_smap fields !! k = Some v ↔
  k ≠ "osm_id" ∧ fields !! k = Some (JString v).
Proof.
  unfold entry_smap.
  assert (Hnd : NoDup (json_fields fields).*1).
  { rewrite json_fields_perm. apply NoDup_fst_map_to_list. }
  rewrite fold_smap_field_lookup by done.
  assert (Hmap : (list_to_map (json_fields fields) : gmap string json) = fields).
  { rewrite <- (list_to_map_to_list fields) at 2.
    apply list_to_map_proper; [done|apply json_fields_perm]. }
  rewrite Hmap, lookup_empty.
  destruct (fields !! k) as [j|]; [|split; [done|by intros [_ ?]]].
  destruct j as [| | | |s| |];
    try (split; [done|intros [_ Hj]; discriminate Hj]).
  destruct (decide (k = "osm_id")) as [Hk|Hk].
  - rewrite bool_decide_eq_false_2 by (intros Hn; by apply Hn).
    split; [done|by intros [? _]].
  - rewrite bool_decide_eq_true_2 by done.
    split; [by intros [= ->]|by intros [_ [= ->]]].
Qed.

Lemma for_each_app {A} (body : A → throwing unit) (l1 l2 : list A) cfg :
  for_each body (l1 ++ l2) cfg = (for_each body l1 ;; for_each body l2) cfg.
Proof.
  revert cfg. induction l1 as [|x l1 IH]; intros cfg; simpl.
  - done.
  - unfold mbind, throwing_bind in *.
    destruct (body x cfg) as [[[]|] cfg1]; simpl; [apply IH|done].
Qed.

Section ways_section.

Variable get_long : json → option object_id_type.

(** An entry that returns leaves the record of every identifier but its
    own as it was. *)
Lemma ways_entry_other it id cfg cfg' :
  entry_id get_long it ≠ Some id →
  ways_entry get_long it cfg = (Some tt, cfg') →
  waymap cfg' !! id = waymap cfg !! id.
Proof.
  unfold entry_id, ways_entry.
  destruct it as [| | | | | |fields]; try by intros _ [= <-].
  destruct (fields !! "osm_id") as [osm_id|]; [|by intros _ [= <-]].
  simpl. intros Hid Hrun.
  apply throwing_bind_inv in Hrun as (id' & cfg1 & Hget & Hupd).
  unfold try_get in Hget. injection Hget as Hget <-.
  unfold update in Hupd. injection Hupd as <-.
  simpl. rewrite lookup_insert_ne; [done|]. intros ->. by rewrite Hget in Hid.
Qed.

Lemma for_each_ways_other l id cfg cfg' :
  Forall (λ it, entry_id get_long it ≠ Some id) l →
  for_each (ways_entry get_long) l cfg = (Some tt, cfg') →
  waymap cfg' !! id = waymap cfg !! id.
Proof.
  revert cfg. induction l as [|it l IH]; intros cfg Hl Hrun.
  - by injection Hrun as <-.
  - apply Forall_cons in Hl as [Hit Hl]. simpl in Hrun.
    apply throwing_bind_inv in Hrun as ([] & cfg1 & Hhead & Hrest).
    rewrite (IH cfg1) by done. by eapply ways_entry_other.
Qed.

(** An entry with an [osm_id] field that returns has assigned the record
    of its fields to its identifier. *)
Lemma ways_entry_assigns fields osm_id cfg cfg' :
  fields !! "osm_id" = Some osm_id →
  ways_entry get_long (JObject fields) cfg = (Some tt, cfg') →
  ∃ id, get_long osm_id = Some id ∧
        waymap cfg' !! id = Some (entry_smap fields).
Proof.
  unfold ways_entry. intros -> Hrun.
  apply throwing_bind_inv in Hrun as (id & cfg1 & Hget & Hupd).
  unfold try_get in Hget. injection Hget as Hget <-.
  unfold update in Hupd. injection Hupd as <-.
  exists id. split; [done|]. simpl. by rewrite lookup_insert_eq.
Qed.

(** The loop over the "ways" array: the record of an identifier is the one
    of the last entry with that identifier. *)
Lemma for_each_ways_last l1 fields osm_id l2 cfg cfg' :
  fields !! "osm_id" = Some osm_id →
  Forall (λ it, entry_id get_long it ≠ get_long osm_id) l2 →
  for_each (ways_entry get_long) (l1 ++ JObject fields :: l2) cfg
    = (Some tt, cfg') →
  ∃ id, get_long osm_id = Some id ∧
        waymap cfg' !! id = Some (entry_smap fields).
Proof.
  intros Hosm Hl2 Hrun. rewrite for_each_app in Hrun.
  apply throwing_bind_inv in Hrun as ([] & cfg1 & _ & Hrun).
  simpl in Hrun.
  apply throwing_bind_inv in Hrun as ([] & cfg2 & Hentry & Hrest).
  destruct (ways_entry_assigns _ _ _ _ Hosm Hentry) as (id & Hid & Hrec).
  exists id. split; [done|].
  rewrite (for_each_ways_other l2 id cfg2 cfg'); [done| |done].
  by rewrite Hid in Hl2.
Qed.

(** [jsonize] returning true on a document with a "ways" array has run
    the loop over the array to its end, and the tables are those the loop
    left. *)
Lemma jsonize_ways_loop top ws cfg cfg' :
  top !! "ways" = Some (JArray ws) →
  jsonize get_long (Some (JObject top)) cfg = (true, cfg') →
  ∃ cfg1, for_each (ways_entry get_long) ws cfg1 = (Some tt, cfg').
Proof.
  intros Hways. unfold jsonize.
  destruct (jsonize_try get_long (Some (JObject top)) cfg)
    as [[[]|] cfg2] eqn:Htry; simpl; [|done].
  intros [= <-]. unfold jsonize_try in Htry.
  apply throwing_bind_inv in Htry as (jout & c1 & Hjout & Htry).
  injection Hjout as <- <-.
  apply throwing_bind_inv in Htry as (ro & c2 & _ & Htry).
  apply throwing_bind_inv in Htry as ([] & c3 & _ & Htry).
  apply throwing_bind_inv in Htry as (wo & c4 & Hwo & Htry).
  unfold try_get in Hwo. simpl in Hwo. rewrite Hways in Hwo.
  injection Hwo as <- <-. simpl in Htry. eauto.
Qed.

Lemma jsonize_last_entry top ws i fields osm_id cfg cfg' :
  top !! "ways" = Some (JArray ws) →
  ws !! i = Some (JObject fields) →
  fields !! "osm_id" = Some osm_id →
  (∀ j it, (i < j)%nat → ws !! j = Some it →
     entry_id get_long it ≠ get_long osm_id) →
  jsonize get_long (Some (JObject top)) cfg = (true, cfg') →
  ∃ id, get_long osm_id = Some id ∧
        waymap cfg' !! id = Some (entry_smap fields).
Proof.
  intros Hways Hi Hosm Hlater Hrun.
  destruct (jsonize_ways_loop _ _ _ _ Hways Hrun) as (cfg1 & Hloop).
  apply list_elem_of_split_length in Hi as (l1 & l2 & -> & Hlen).
  eapply for_each_ways_last; [done| |exact Hloop].
  apply Forall_lookup. intros j it Hj.
  apply (Hlater (length l1 + S j)%nat); [lia|].
  rewrite lookup_app_r by lia.
  replace (length l1 + S j - length l1)%nat with (S j) by lia. done.
Qed.

End ways_section.

(** C8. In a document on which [jsonize] returns true, take an entry of the
    "ways" array that is an object with an [osm_id] field and is the last
    one for its identifier. Its [osm_id] converts to an identifier, and the
    override table holds for that identifier a record whose entries are
    exactly the other fields of the entry that have a string value, each
    under the field's name; a field with another kind of value has no
    entry. *)
Theorem ways_entry_override_record
    (get_long : json → option object_id_type)
    (top : gmap string json) (ws : list json) (i : nat)
    (fields : gmap string json) (osm_id : json) (cfg cfg' : config) :
  top !! "ways" = Some (JArray ws) →
  ws !! i = Some (JObject fields) →
  fields !! "osm_id" = Some osm_id →
  (∀ j it, (i < j)%nat → ws !! j = Some it →
     entry_id get_long it ≠ get_long osm_id) →
  jsonize get_long (Some (JObject top)) cfg = (true, cfg') →
  ∃ id smap,
    get_long osm_id = Some id ∧
    waymap cfg' !! id = Some smap ∧
    ∀ k v, smap !! k = Some v ↔
           k ≠ "osm_id" ∧ fields !! k = Some (JString v).
Proof.
  intros Hways Hi Hosm Hlater Hrun.
  destruct (jsonize_last_entry get_long _ _ _ _ _ _ _ Hways Hi Hosm Hlater Hrun)
    as (id & Hid & Hrec).
  exists id, (entry_smap fields). split_and!; [done..|].
  apply entry_smap_lookup.
Qed.

Lemma ways_entry_override_record_witness :
  ∃ id smap,
    get_long_integer (JInt 42) = Some id ∧
    waymap sample_document_tables !! id = Some smap ∧
    ∀ k v, smap !! k = Some v ↔
           k ≠ "osm_id" ∧ second_entry !! k = Some (JString v).
Proof.
  apply (ways_entry_override_record get_long_integer sample_document
           sample_ways 1 second_entry (JInt 42) (Config ∅ ∅ ∅)
           sample_document_tables).
  - reflexivity.
  - reflexivity.
  - reflexivity.
  - intros [|[|j]] it Hj Hit; [lia|lia|discriminate Hit].
  - vm_compute. reflexivity.
Defined.

(** C8, as the claim words it, fails. A later entry with the same
    identifier: the sample document is accepted, the first entry of its
    "ways" array has an [osm_id] field, 42, and the string field name=A, and
    the record the table holds for way 42 is not made of the string fields
    of that entry. An [osm_id] that does not convert: [jsonize] fails, and
    the table holds no record at all. *)
Lemma earlier_entry_leaves_no_record :
  (sample_document !! "ways" = Some (JArray sample_ways) ∧
   sample_ways !! 0%nat = Some (JObject first_entry) ∧
   first_entry !! "osm_id" = Some (JInt 42) ∧
   jsonize get_long_integer (Some (JObject sample_document)) (Config ∅ ∅ ∅)
     = (true, sample_document_tables) ∧
   ¬ ∃ id smap,
       get_long_integer (JInt 42) = Some id ∧
       waymap sample_document_tables !! id = Some smap ∧
       ∀ k v, smap !! k = Some v ↔
              k ≠ "osm_id" ∧ first_entry !! k = Some (JString v)) ∧
  (jsonize get_long_integer
     (Some (JObject {[ "ways" :=
        JArray [JObject {[ "osm_id" := JString "42";
                           "name" := JString "N" ]}] ]}))
     sample_tables).2 = Config ∅ ∅ ∅.
Proof.
  split; [|vm_compute; reflexivity].
  split_and!; [vm_compute; reflexivity..|].
  intros (id & smap & [= <-] & Hrec & Hfields).
  vm_compute in Hrec. injection Hrec as <-.
  assert (Hname : "name" ≠ "osm_id" ∧ first_entry !! "name" = Some (JString "A")).
  { split; [discriminate|vm_compute; reflexivity]. }
  apply Hfields in Hname. vm_compute in Hname. discriminate Hname.
Qed.



(** The name of the first entry is not in the record: the records of the
    two entries are not merged. *)
Example later_entry_replaces_example :
  jsonize get_long_integer (Some (JObject sample_document)) (Config ∅ ∅ ∅)
    = (true, sample_document_tables) ∧
  entry_smap first_entry = {[ "name" := "A" ]} ∧
  waymap sample_document_tables !! 42 ≫= (.!! "name") = None.
Proof. split_and!; vm_compute; reflexivity. Qed.

(** ** The run on an empty file *)

Lemma full_box_contains (l : Location) :
  location_valid l → box_contains (box_of_degrees (-180) (-90) 180 90) l.
Proof.
  unfold location_valid, box_contains, box_of_degrees. simpl. lia.
Qed.

(** C9. With options that pass the checks (an output name, one operand) and
    an input file without objects, read and written without an [io_error],
    [main] returns after the three passes: the output file has no objects
    and the header, which carries the generator name osmborder_filter and
    one box, from (-180, -90) to (180, 90), that contains every valid
    location. Standard error holds the change file warning, if there is
    one, and in verbose mode the lines of [vout] of a run without
    relations. *)
Theorem empty_input_run
    (get_long : json → option object_id_type)
    (argv : list cmd_option) (o : options) (mem : MemoryUsage) :
  option_loop get_long initial_options argv = inr o →
  output_filename o ≠ "" →
  main get_long argv 1 [] None mem
    = Returned ((if no_json_err o then [] else [json_warning])
                ++ vout (verbose o) (run_lines (tables o) [] mem))
        {| out_header := the_header; out_entities := [] |} ∧
  header_options the_header !! "generator" = Some "osmborder_filter" ∧
  header_boxes the_header = [box_of_degrees (-180) (-90) 180 90] ∧
  ∀ l, location_valid l →
       Forall (λ b, box_contains b l) (header_boxes the_header).
Proof.
  intros Hloop Hout. split_and!.
  - unfold main. rewrite Hloop.
    rewrite bool_decide_eq_false_2 by done.
    rewrite bool_decide_eq_false_2 by (intros Hn; by apply Hn).
    reflexivity.
  - reflexivity.
  - reflexivity.
  - intros l Hl.
    change (header_boxes the_header) with [box_of_degrees (-180) (-90) 180 90].
    apply Forall_cons. split; [by apply full_box_contains|constructor].
Qed.

Lemma empty_input_run_witness :
  main get_long_integer [opt_verbose; opt_output "out.pbf"] 1 [] None
    (MkMemoryUsage 12 15)
    = Returned
        [timed ("Reading relations (1st pass through input file)..."
                +:+ newline);
         timed ("Preparing way ID list..." +:+ newline);
         timed ("Reading ways (2nd pass through input file)..." +:+ newline);
         timed ("Preparing node ID list..." +:+ newline);
         timed ("Reading nodes (3rd pass through input file)..." +:+ newline);
         timed ("All done." +:+ newline);
         timed ("Memory used: current: 12 MBytes" +:+ newline);
         timed ("             peak:    15 MBytes" +:+ newline)]
        {| out_header := the_header; out_entities := [] |}.
Proof.
  apply (empty_input_run get_long_integer [opt_verbose; opt_output "out.pbf"]
           {| output_filename := "out.pbf"; verbose := true;
              tables := Config ∅ ∅ ∅; no_json_err := true |}
           (MkMemoryUsage 12 15)).
  - reflexivity.
  - discriminate.
Defined.

(** ** What pass 2 writes *)

Lemma copy_if_sublist {X} (pred : X → nat → access (bool * nat))
    (range : list X) :
  ∀ first out,
    (copy_if pred range first).2 = Some out → out `sublist_of` range.
Proof.
  induction range as [|a range IH]; intros first out.
  - intros [= <-]. constructor.
  - destruct (pred a first).2 as [[sel first']|] eqn:Hp.
    + rewrite (copy_if_cons_result _ _ _ _ _ _ Hp).
      destruct (copy_if pred range first').2 as [out'|] eqn:Hout; [|done].
      simpl. intros [= <-]. specialize (IH _ _ Hout).
      destruct sel; by constructor.
    + by rewrite copy_if_cons_undefined.
Qed.

(** Every way pass 2 writes is the rewritten form of a way of the stream,
    in stream order, with the identifier and the node references of that
    way; [node_ids] holds the node references of these ways. *)
Lemma pass2_output_structure (cfg : config) (collected : list object_id_type)
    (ways out : list Way) (node_ids : list object_id_type) :
  (pass2 cfg collected ways).2 = Some (out, node_ids) →
  ∃ sel, sel `sublist_of` ways ∧
    out = rewrite_way cfg <$> sel ∧
    way_id <$> out = way_id <$> sel ∧
    way_nodes <$> out = way_nodes <$> sel ∧
    node_ids = sel ≫= node_refs.
Proof.
  unfold pass2. cbv zeta. rewrite pass2_loop_merge_filter.
  destruct (merge_filter _ _ _ _ _).2 as [sel|] eqn:Hsel; [|done].
  simpl. intros [= <- <-]. exists sel.
  split_and!; [by eapply copy_if_sublist|done| | |done].
  - rewrite <- list_fmap_compose. apply list_fmap_ext. intros _ w _.
    simpl. unfold rewrite_way. by destruct (waymap cfg !! way_id w).
  - rewrite <- list_fmap_compose. apply list_fmap_ext. intros _ w _.
    simpl. unfold rewrite_way. by destruct (waymap cfg !! way_id w).
Qed.

(** * Further properties of the passes *)

(** ** What the cursor reads and what it selects, for any stream *)

Lemma access_bind_inv {A B} (m : access A) (f : A → access B) b :
  (m ≫= f).2 = Some b → ∃ a, m.2 = Some a ∧ (f a).2 = Some b.
Proof.
  unfold mbind, access_bind. destruct m.2 as [a|]; [eauto|done].
Qed.

Lemma access_bind_trace {A B} (m : access A) (f : A → access B) :
  (m ≫= f).1 = m.1 ++ match m.2 with Some a => (f a).1 | None => [] end.
Proof.
  unfold mbind, access_bind. destruct m.2; simpl; [done|by rewrite app_nil_r].
Qed.

Lemma advance_from_cons x rest last id first :
  advance_from (x :: rest) last id first =
  if bool_decide (x < id) && bool_decide (first ≠ last)
  then (first :: (advance_from rest last id (S first)).1,
        (advance_from rest last id (S first)).2)
  else ([first], Some first).
Proof. simpl. by destruct (_ && _). Qed.

Lemma advance_from_within rest last id first :
  (first ≤ last)%nat →
  Forall (λ i, first ≤ i ≤ last)%nat (advance_from rest last id first).1 ∧
  ∀ first1, (advance_from rest last id first).2 = Some first1 →
            (first ≤ first1 ≤ last)%nat.
Proof.
  revert first. induction rest as [|x rest IH]; intros first Hle.
  - split; [repeat constructor; lia|done].
  - rewrite advance_from_cons.
    destruct (bool_decide (x < id)); cbn [andb];
      [case_bool_decide as Hne|]; cbn [fst snd].
    + destruct (IH (S first)) as [Htrace Hres]; [lia|]. split.
      * constructor; [lia|]. eapply Forall_impl; [exact Htrace|].
        intros i ?. simpl in *. lia.
      * intros first1 Hfirst1. apply Hres in Hfirst1. lia.
    + split; [repeat constructor; lia|]. intros first1 [= <-]. lia.
    + split; [repeat constructor; lia|]. intros first1 [= <-]. lia.
Qed.

Lemma cursor_step_unfold ids last id first :
  cursor_step ids last id first =
  let adv := advance ids last id first in
  match adv.2 with
  | None => (adv.1, None)
  | Some first1 =>
      match ids !! first1 with
      | None => (adv.1 ++ [first1], None)
      | Some x =>
          (adv.1 ++ [first1],
           Some (if bool_decide (id = x)
                 then (true, if bool_decide (first1 ≠ last)
                             then S first1 else first1)
                 else (false, first1)))
      end
  end.
Proof.
  unfold cursor_step, mbind, access_bind, deref. cbn [fst snd].
  destruct (advance ids last id first).2 as [first1|]; [|done].
  destruct (ids !! first1) as [x|]; [|done].
  destruct (bool_decide (id = x)); cbn; by rewrite ?app_nil_r.
Qed.

Lemma cursor_step_within ids last id first :
  (first ≤ last)%nat →
  Forall (λ i, first ≤ i ≤ last)%nat (cursor_step ids last id first).1 ∧
  ∀ selected first',
    (cursor_step ids last id first).2 = Some (selected, first') →
    (first ≤ first' ≤ last)%nat ∧ (selected = true → id ∈ ids).
Proof.
  intros Hle. rewrite cursor_step_unfold. cbv zeta. unfold advance.
  destruct (advance_from_within (drop first ids) last id first Hle)
    as [Htrace Hres].
  destruct (advance_from (drop first ids) last id first).2 as [first1|];
    [|by split].
  specialize (Hres first1 eq_refl).
  assert (Htrace1 : Forall (λ i, first ≤ i ≤ last)%nat
            ((advance_from (drop first ids) last id first).1 ++ [first1])).
  { apply Forall_app. split; [done|]. repeat constructor; lia. }
  destruct (ids !! first1) as [x|] eqn:Hx; [|by split].
  split; [done|]. cbn [snd]. intros selected first' [= Hstep].
  case_bool_decide as Heq; injection Hstep as <- <-.
  - split; [|intros _; subst x; by eapply list_elem_of_lookup_2].
    case_bool_decide; lia.
  - split; [lia|done].
Qed.

Lemma copy_if_unfold {X} (pred : X → nat → access (bool * nat)) a range first :
  copy_if pred (a :: range) first =
  match (pred a first).2 with
  | None => ((pred a first).1, None)
  | Some r =>
      ((pred a first).1 ++ (copy_if pred range r.2).1,
       (λ out, if r.1 then a :: out else out) <$> (copy_if pred range r.2).2)
  end.
Proof.
  simpl. unfold mbind, access_bind.
  destruct (pred a first).2 as [[sel first']|]; [|done]. cbn [fst snd].
  destruct (copy_if pred range first').2; cbn; by rewrite ?app_nil_r.
Qed.

Lemma copy_if_cursor_within {X} (key : X → object_id_type) ids last
    (stream : list X) :
  ∀ first, (first ≤ last)%nat →
    Forall (λ i, first ≤ i ≤ last)%nat (merge_filter key ids last stream first).1 ∧
    ∀ out, (merge_filter key ids last stream first).2 = Some out →
           out `sublist_of` stream ∧ ∀ a, a ∈ out → key a ∈ ids.
Proof.
  unfold merge_filter.
  induction stream as [|a stream IH]; intros first Hle.
  { split; [constructor|]. intros out [= <-].
    split; [constructor|by intros ? ?%elem_of_nil]. }
  destruct (cursor_step_within ids last (key a) first Hle) as [Htrace Hres].
  rewrite copy_if_unfold.
  destruct (cursor_step ids last (key a) first).2 as [[sel first']|];
    [|by split].
  destruct (Hres sel first' eq_refl) as [Hfirst' Hsel].
  destruct (IH first') as [Htrace' Hres']; [lia|].
  cbn [fst snd]. split.
  - apply Forall_app. split; [done|].
    eapply Forall_impl; [exact Htrace'|]. intros i ?. simpl in *. lia.
  - intros out Hout.
    destruct (copy_if _ stream first').2 as [out'|]; [|done].
    injection Hout as <-.
    destruct (Hres' out' eq_refl) as [Hsub Hin]. destruct sel.
    + split; [by constructor|].
      intros a' [->|?]%elem_of_cons; [by apply Hsel|by apply Hin].
    + split; [by constructor|done].
Qed.

Lemma std_unique_elem_of (ids : list object_id_type) x :
  x ∈ (std_unique ids).1 → x ∈ ids.
Proof.
  unfold std_unique. simpl. intros [Hk|Hd]%elem_of_app.
  - by apply unique_prefix_elem_of.
  - by eapply subseteq_drop.
Qed.

Lemma std_unique_last_le (ids : list object_id_type) :
  ((std_unique ids).2 ≤ length (std_unique ids).1)%nat.
Proof.
  rewrite std_unique_length. unfold std_unique. simpl.
  apply unique_prefix_length.
Qed.

Lemma pass2_loop_trace (cfg : config) ids last (ways : list Way) :
  ∀ first out node_ids,
    (pass2_loop cfg ids last ways first out node_ids).1
    = (merge_filter way_id ids last ways first).1.
Proof.
  unfold merge_filter.
  induction ways as [|w ways IH]; intros first out node_ids; [done|].
  rewrite copy_if_unfold. simpl. unfold mbind, access_bind.
  destruct (cursor_step ids last (way_id w) first).2 as [[sel first']|];
    [|done].
  cbn [fst snd]. destruct sel; by rewrite IH.
Qed.

(** X1. Whatever the stream of ways and whatever was collected, sorted or
    not: when pass 2 runs to its end, the ways it has written are the
    rewritten forms of ways of the stream, in stream order, each with an
    identifier that was collected in pass 1, and [node_ids] holds the node
    references of exactly these ways. *)
Theorem pass2_selects_only_collected (cfg : config)
    (collected : list object_id_type) (ways out : list Way)
    (node_ids : list object_id_type) :
  (pass2 cfg collected ways).2 = Some (out, node_ids) →
  ∃ sel, sel `sublist_of` ways ∧
    out = rewrite_way cfg <$> sel ∧
    node_ids = sel ≫= node_refs ∧
    ∀ w, w ∈ sel → way_id w ∈ collected.
Proof.
  unfold pass2. cbv zeta. rewrite pass2_loop_merge_filter.
  destruct (merge_filter _ _ _ _ _).2 as [sel|] eqn:Hsel; [|done].
  simpl. intros [= <- <-]. exists sel.
  destruct (copy_if_cursor_within way_id
              (std_unique (std_sort collected)).1
              (std_unique (std_sort collected)).2 ways 0%nat)
    as [_ Hres]; [lia|].
  destruct (Hres sel Hsel) as [Hsub Hin].
  split_and!; [done..|].
  intros w Hw. rewrite <- std_sort_perm.
  by apply std_unique_elem_of, Hin.
Qed.

Lemma pass2_selects_only_collected_witness :
  ∃ sel, sel `sublist_of` [way_300; way_200] ∧
    [way_200] = rewrite_way sample_tables <$> sel ∧
    [1; 2; 3] = sel ≫= node_refs ∧
    ∀ w, w ∈ sel → way_id w ∈ [200; 200].
Proof.
  apply (pass2_selects_only_collected sample_tables [200; 200]
           [way_300; way_200] [way_200] [1; 2; 3]).
  vm_compute. reflexivity.
Defined.

(** X2. Whatever the stream of nodes and whatever was collected: when pass 3
    runs to its end, the nodes it has written are nodes of the stream, as
    read and in stream order, each with an identifier that was collected in
    pass 2. *)
Theorem pass3_selects_only_collected (collected : list object_id_type)
    (nodes out : list Node) :
  (pass3 collected nodes).2 = Some out →
  out `sublist_of` nodes ∧ ∀ n, n ∈ out → node_id n ∈ collected.
Proof.
  unfold pass3. cbv zeta. intros Hout.
  destruct (copy_if_cursor_within node_id
              (std_unique (std_sort collected)).1
              (std_unique (std_sort collected)).2 nodes 0%nat)
    as [_ Hres]; [lia|].
  destruct (Hres out Hout) as [Hsub Hin].
  split; [done|]. intros n Hn. rewrite <- std_sort_perm.
  by apply std_unique_elem_of, Hin.
Qed.

Lemma pass3_selects_only_collected_witness :
  [sample_node 2] `sublist_of` [sample_node 2; sample_node 5] ∧
  ∀ n, n ∈ [sample_node 2] → node_id n ∈ [2; 7; 2].
Proof.
  apply (pass3_selects_only_collected [2; 7; 2]
           [sample_node 2; sample_node 5] [sample_node 2]).
  vm_compute. reflexivity.
Defined.

(** X3. In pass 2 and in pass 3 the cursor never goes beyond [last], and no
    index beyond [last] is dereferenced, for any stream and any collected
    identifiers: the only read outside the target range is the one at
    [last] itself. *)
Theorem passes_read_up_to_last (cfg : config)
    (collected : list object_id_type) (ways : list Way) (nodes : list Node) :
  let last := (std_unique (std_sort collected)).2 in
  (last ≤ length (std_unique (std_sort collected)).1)%nat ∧
  Forall (λ i, i ≤ last)%nat (pass2 cfg collected ways).1 ∧
  Forall (λ i, i ≤ last)%nat (pass3 collected nodes).1.
Proof.
  intros last. split_and!.
  - apply std_unique_last_le.
  - unfold pass2. cbv zeta. rewrite pass2_loop_trace.
    destruct (copy_if_cursor_within way_id
                (std_unique (std_sort collected)).1 last ways 0%nat)
      as [Htrace _]; [lia|].
    eapply Forall_impl; [exact Htrace|]. intros i ?. simpl in *. lia.
  - unfold pass3. cbv zeta.
    destruct (copy_if_cursor_within node_id
                (std_unique (std_sort collected)).1 last nodes 0%nat)
      as [Htrace _]; [lia|].
    eapply Forall_impl; [exact Htrace|]. intros i ?. simpl in *. lia.
Qed.

(** ** The three passes together *)

(** X4. When the three passes run to their end, no [io_error] was raised,
    standard error has gained the lines of [vout] only (nothing when not
    verbose), the output is the header followed by relations, then ways,
    then nodes, and it is closed under reference, for any input order: the
    relations are those pass 1 selects, as read; every way written is the
    rewritten form of a way of the input that is a way member of one of
    these relations; every node written is a node of the input, as read,
    that one of these ways refers to. *)
Theorem output_is_closed (verbose : bool) (cfg : config)
    (stderr stderr' : list message) (infile : list entity)
    (e : option io_error) (mem : MemoryUsage) (written : output_file) :
  three_passes verbose cfg stderr infile e mem = Returned stderr' written →
  e = None ∧
  stderr' = stderr ++ vout verbose (run_lines cfg (read_relations infile) mem) ∧
  out_header written = the_header ∧
  ∃ ways nodes,
    let rels := filter (spec_selected cfg) (read_relations infile) in
    out_entities written
      = (ERelation <$> rels) ++ (EWay <$> (rewrite_way cfg <$> ways))
        ++ (ENode <$> nodes) ∧
    ways `sublist_of` read_ways infile ∧
    nodes `sublist_of` read_nodes infile ∧
    (∀ w, w ∈ ways → ∃ r, r ∈ rels ∧ way_id w ∈ way_member_refs r) ∧
    (∀ n, n ∈ nodes → ∃ w, w ∈ ways ∧ node_id n ∈ node_refs w).
Proof.
  intros Hrun.
  pose proof (three_passes_returned_no_error _ _ _ _ _ _ _ _ Hrun) as ->.
  revert Hrun. rewrite three_passes_no_error. cbv zeta.
  unfold pass1. rewrite pass1_fold. cbn [fst snd app].
  set (rels := filter (spec_selected cfg) (read_relations infile)).
  unfold pass2, pass3. cbv zeta. rewrite pass2_loop_merge_filter.
  destruct (merge_filter way_id _ _ _ _).2 as [ways|] eqn:Hways; [|done].
  cbn [fmap option_fmap option_map fst snd].
  destruct (copy_if _ (read_nodes infile) 0%nat).2 as [nodes|] eqn:Hnodes;
    [|done].
  intros [= <- <-]. split_and!; [done..|].
  exists ways, nodes.
  cbn [app] in Hnodes.
  destruct (proj2 (copy_if_cursor_within way_id _ _ _ 0%nat (Nat.le_0_l _))
              ways Hways) as [Hwsub Hwin].
  destruct (proj2 (copy_if_cursor_within node_id _ _ _ 0%nat (Nat.le_0_l _))
              nodes Hnodes) as [Hnsub Hnin].
  cbv zeta. split_and!; [done..| |].
  - intros w Hwsel. apply Hwin, std_unique_elem_of in Hwsel.
    rewrite std_sort_perm in Hwsel.
    apply list_elem_of_bind in Hwsel as (r & ? & ?). eauto.
  - intros n Hnsel. apply Hnin, std_unique_elem_of in Hnsel.
    rewrite std_sort_perm in Hnsel.
    apply list_elem_of_bind in Hnsel as (w & ? & ?). eauto.
Qed.

Lemma output_is_closed_witness :
  ∃ ways nodes,
    let rels := filter (spec_selected sample_tables) (read_relations ring_file) in
    [ERelation (sample_relation 100 [("boundary", "administrative")] [200; 200]);
     EWay (RewriteHandler.way ring_200);
     ENode (sample_node 1); ENode (sample_node 2); ENode (sample_node 3)]
      = (ERelation <$> rels) ++ (EWay <$> (rewrite_way sample_tables <$> ways))
        ++ (ENode <$> nodes) ∧
    ways `sublist_of` read_ways ring_file ∧
    nodes `sublist_of` read_nodes ring_file ∧
    (∀ w, w ∈ ways → ∃ r, r ∈ rels ∧ way_id w ∈ way_member_refs r) ∧
    (∀ n, n ∈ nodes → ∃ w, w ∈ ways ∧ node_id n ∈ node_refs w).
Proof.
  apply (output_is_closed false sample_tables [] [] ring_file None
           (MkMemoryUsage 0 0)
           {| out_header := the_header;
              out_entities :=
                [ERelation (sample_relation 100
                              [("boundary", "administrative")] [200; 200]);
                 EWay (RewriteHandler.way ring_200);
                 ENode (sample_node 1); ENode (sample_node 2);
                 ENode (sample_node 3)] |}).
  vm_compute. reflexivity.
Defined.

(** X5. The whole selection, when both streams are strictly ascending and,
    for each of the two target lists, either some identifier was collected
    twice or no object of the stream lies above all collected identifiers:
    when no [io_error] is raised the run returns, and the output is the
    selected relations as read, the ways of the input that are way members
    of them, rewritten, and the nodes of the input these ways refer to, as
    read, each kind in input order; standard error gains the lines of
    [vout] in verbose mode and nothing otherwise. *)
Theorem three_passes_output (verbose : bool) (cfg : config)
    (stderr : list message) (infile : list entity) (mem : MemoryUsage) :
  let rels := filter (spec_selected cfg) (read_relations infile) in
  let way_ids := rels ≫= way_member_refs in
  let ways := filter (λ w, way_id w ∈ way_ids) (read_ways infile) in
  let node_ids := ways ≫= node_refs in
  let nodes := filter (λ n, node_id n ∈ node_ids) (read_nodes infile) in
  StronglySorted Z.lt (way_id <$> read_ways infile) →
  StronglySorted Z.lt (node_id <$> read_nodes infile) →
  ¬ NoDup way_ids ∨
    (∀ w, w ∈ read_ways infile → ∃ c, c ∈ way_ids ∧ way_id w ≤ c) →
  ¬ NoDup node_ids ∨
    (∀ n, n ∈ read_nodes infile → ∃ c, c ∈ node_ids ∧ node_id n ≤ c) →
  three_passes verbose cfg stderr infile None mem
  = Returned
      (stderr ++ vout verbose (run_lines cfg (read_relations infile) mem))
      {| out_header := the_header;
         out_entities :=
           (ERelation <$> rels) ++ (EWay <$> (rewrite_way cfg <$> ways))
           ++ (ENode <$> nodes) |}.
Proof.
  intros rels way_ids ways node_ids nodes Hsw Hsn Hcw Hcn.
  rewrite three_passes_no_error. cbv zeta.
  unfold pass1. rewrite pass1_fold. cbn [fst snd app].
  fold rels. fold way_ids.
  assert (Hp2 : (pass2 cfg way_ids (read_ways infile)).2
                = Some (rewrite_way cfg <$> ways, node_ids)).
  { unfold pass2, std_unique. cbn [fst snd].
    rewrite pass2_loop_merge_filter.
    rewrite (merge_filter_selects way_id).
    - simpl. unfold node_ids, ways. by rewrite filter_target_collected.
    - apply unique_prefix_strict, std_sort_sorted.
    - done.
    - by apply collected_covered. }
  rewrite Hp2. cbn [fst snd].
  assert (Hp3 : (pass3 node_ids (read_nodes infile)).2 = Some nodes).
  { unfold pass3, std_unique. cbn [fst snd].
    unfold nodes. rewrite <- (filter_target_collected node_id node_ids).
    apply (merge_filter_selects node_id).
    - apply unique_prefix_strict, std_sort_sorted.
    - done.
    - by apply collected_covered. }
  by rewrite Hp3.
Qed.

Lemma three_passes_output_witness :
  three_passes false sample_tables [] ring_file None (MkMemoryUsage 0 0)
  = Returned []
      {| out_header := the_header;
         out_entities :=
           [ERelation (sample_relation 100
                         [("boundary", "administrative")] [200; 200]);
            EWay (RewriteHandler.way ring_200);
            ENode (sample_node 1); ENode (sample_node 2);
            ENode (sample_node 3)] |}.
Proof.
  etrans.
  - apply (three_passes_output false sample_tables [] ring_file
             (MkMemoryUsage 0 0)).
    + vm_compute. repeat constructor.
    + vm_compute. repeat constructor.
    + left. intros Hnd. vm_compute in Hnd.
      apply NoDup_cons in Hnd as [Hn _]. apply Hn. left.
    + left. intros Hnd. vm_compute in Hnd.
      apply NoDup_cons in Hnd as [Hn _]. apply Hn.
      right. right. left.
  - vm_compute. reflexivity.
Defined.

(** * Further properties of the change file *)

Section change_file.

Variable get_long : json → option object_id_type.

Lemma throwing_bind_assoc {A B C} (m : throwing A) (f : A → throwing B)
    (g : B → throwing C) cfg :
  (m ≫= λ a, f a ≫= g) cfg = ((m ≫= f) ≫= g) cfg.
Proof.
  unfold mbind, throwing_bind. by destruct (m cfg).1.
Qed.

(** One flag of a "relations" entry: the two statements that read it and
    insert the identifier. *)
Lemma flag_step_run fields key osm_id ins cfg :
  (b ← flag_set fields key; insert_if get_long b osm_id ins) cfg =
  match fields !! key with
  | None | Some (JBool false) => (Some tt, cfg)
  | Some (JBool true) =>
      match get_long osm_id with
      | Some id => (Some tt, ins id cfg)
      | None => (None, cfg)
      end
  | Some _ => (None, cfg)
  end.
Proof.
  unfold flag_set, insert_if, mbind, throwing_bind, try_get, update.
  destruct (fields !! key) as [[| [] | | | | |]|]; try reflexivity.
Qed.

Lemma flag_step_returns fields key osm_id ins cfg cfg' :
  (b ← flag_set fields key; insert_if get_long b osm_id ins) cfg
    = (Some tt, cfg') →
  flag_ok get_long fields osm_id key ∧
  ((∃ id, fields !! key = Some (JBool true) ∧ get_long osm_id = Some id ∧
          cfg' = ins id cfg) ∨
   (fields !! key ≠ Some (JBool true) ∧ cfg' = cfg)).
Proof.
  rewrite flag_step_run. unfold flag_ok.
  destruct (fields !! key) as [[| [] | | | | |]|]; try done;
    try (intros [= <-]; split; [done|by right]).
  destruct (get_long osm_id) as [id|]; [|done].
  intros [= <-]. split; [done|]. left. by exists id.
Qed.

Lemma flag_step_ok fields key osm_id ins cfg :
  flag_ok get_long fields osm_id key →
  ∃ cfg', (b ← flag_set fields key; insert_if get_long b osm_id ins) cfg
          = (Some tt, cfg').
Proof.
  rewrite flag_step_run. unfold flag_ok.
  destruct (fields !! key) as [[| [] | | | | |]|]; try done; eauto.
  intros [id ->]. eauto.
Qed.

Lemma relations_entry_object fields osm_id cfg :
  fields !! "osm_id" = Some osm_id →
  relations_entry get_long (JObject fields) cfg =
  ((wt ← flag_set fields "whitelist";
    insert_if get_long wt osm_id insert_yesborder) ;;
   (bk ← flag_set fields "blacklist";
    insert_if get_long bk osm_id insert_noborder)) cfg.
Proof.
  unfold relations_entry. intros ->.
  rewrite <- throwing_bind_assoc. reflexivity.
Qed.

Lemma listed_inv flag fields osm_id id :
  fields !! "osm_id" = Some osm_id →
  listed get_long flag (JObject fields) id ↔
  fields !! flag = Some (JBool true) ∧ get_long osm_id = Some id.
Proof.
  intros Hosm. unfold listed. split.
  - intros (f & o & [= <-] & Ho & Hf & Hg). rewrite Hosm in Ho.
    by injection Ho as <-.
  - intros [Hf Hg]. by exists fields, osm_id.
Qed.

(** One entry of the "relations" section: it returns exactly when it is in
    order, and then it has added what it lists to the two sets and left the
    override table alone. *)
Lemma relations_entry_spec it cfg :
  ((relations_entry get_long it cfg).1 = Some tt ↔
   relation_entry_ok get_long it) ∧
  ∀ cfg', relations_entry get_long it cfg = (Some tt, cfg') →
    waymap cfg' = waymap cfg ∧
    (∀ id, id ∈ yesborder cfg' ↔
           id ∈ yesborder cfg ∨ listed get_long "whitelist" it id) ∧
    (∀ id, id ∈ noborder cfg' ↔
           id ∈ noborder cfg ∨ listed get_long "blacklist" it id).
Proof.
  destruct it as [| | | | | |fields].
  1-6: split; [by split|]; intros cfg' Hrun;
    unfold relations_entry, mret, throwing_ret in Hrun;
    injection Hrun as <-;
    (split_and!; [done|intros id..]); (split; [by left|]);
    (intros [?|Hl]; [done|]); by destruct Hl as (? & ? & ? & _).
  destruct (fields !! "osm_id") as [osm_id|] eqn:Hosm.
  2:{ unfold relations_entry, relation_entry_ok. rewrite Hosm.
      split; [by split|]. intros cfg' Hrun.
      unfold mret, throwing_ret in Hrun. injection Hrun as <-.
      (split_and!; [done|intros id..]); (split; [by left|]);
        (intros [?|(f & o & [= <-] & Ho & _)]; [done|]); congruence. }
  rewrite (relations_entry_object _ _ _ Hosm).
  unfold relation_entry_ok. rewrite Hosm. split.
  - split.
    + intros Hrun.
      match type of Hrun with
      | (?r).1 = _ => destruct r as [[[]|] cfg'] eqn:Hrun'; [|done]
      end.
      apply throwing_bind_inv in Hrun' as ([] & cfg1 & H1 & H2).
      apply flag_step_returns in H1 as [? _].
      apply flag_step_returns in H2 as [? _]. done.
    + intros [Hw Hb].
      destruct (flag_step_ok fields "whitelist" osm_id insert_yesborder cfg Hw)
        as [cfg1 H1].
      destruct (flag_step_ok fields "blacklist" osm_id insert_noborder cfg1 Hb)
        as [cfg2 H2].
      by rewrite (throwing_bind_returns _ _ _ _ _ H1), H2.
  - intros cfg' Hrun.
    apply throwing_bind_inv in Hrun as ([] & cfg1 & H1 & H2).
    apply flag_step_returns in H1 as [_ H1].
    apply flag_step_returns in H2 as [_ H2].
    split_and!; [|intros id..];
      rewrite ?(listed_inv _ fields osm_id _ Hosm);
      destruct H1 as [(i1 & Hf1 & Hg1 & ->)|[Hf1 ->]],
               H2 as [(i2 & Hf2 & Hg2 & ->)|[Hf2 ->]];
      cbn [waymap yesborder noborder insert_yesborder insert_noborder];
      try done;
      rewrite ?elem_of_union, ?elem_of_singleton;
      intuition (subst; try congruence; auto).
Qed.

Lemma ways_entry_spec it cfg :
  ((ways_entry get_long it cfg).1 = Some tt ↔ way_entry_ok get_long it) ∧
  ∀ cfg', ways_entry get_long it cfg = (Some tt, cfg') →
    yesborder cfg' = yesborder cfg ∧ noborder cfg' = noborder cfg ∧
    ∀ id, is_Some (waymap cfg !! id) → is_Some (waymap cfg' !! id).
Proof.
  unfold ways_entry, way_entry_ok.
  destruct it as [| | | | | |fields];
    try (split; [by split|]; by intros cfg' [= <-]).
  destruct (fields !! "osm_id") as [osm_id|];
    [|split; [by split|]; by intros cfg' [= <-]].
  unfold mbind, throwing_bind, try_get, update. cbn [fst snd].
  destruct (get_long osm_id) as [id0|].
  - split; [split; [eauto|done]|]. intros cfg' [= <-].
    split_and!; [done..|]. intros id Hid. simpl.
    destruct (decide (id0 = id)) as [->|Hne].
    + rewrite lookup_insert_eq. eauto.
    + by rewrite lookup_insert_ne.
  - split; [split; [done|by intros [? ?]]|done].
Qed.

Lemma for_each_returns_iff {A} (body : A → throwing unit) (ok : A → Prop)
    (l : list A) :
  (∀ x cfg, (body x cfg).1 = Some tt ↔ ok x) →
  ∀ cfg, (for_each body l cfg).1 = Some tt ↔ Forall ok l.
Proof.
  intros Hbody. induction l as [|x l IH]; intros cfg.
  - split; [constructor|done].
  - rewrite Forall_cons, <- (Hbody x cfg). simpl.
    unfold mbind, throwing_bind.
    destruct (body x cfg) as [[[]|] cfg1]; cbn [fst snd].
    + rewrite IH. split; [by split|by intros [_ ?]].
    + split; [done|by intros [? _]].
Qed.

Lemma for_each_relations_sets rs :
  ∀ cfg cfg',
    for_each (relations_entry get_long) rs cfg = (Some tt, cfg') →
    waymap cfg' = waymap cfg ∧
    (∀ id, id ∈ yesborder cfg' ↔
           id ∈ yesborder cfg ∨
           ∃ it, it ∈ rs ∧ listed get_long "whitelist" it id) ∧
    (∀ id, id ∈ noborder cfg' ↔
           id ∈ noborder cfg ∨
           ∃ it, it ∈ rs ∧ listed get_long "blacklist" it id).
Proof.
  induction rs as [|it rs IH]; intros cfg cfg' Hrun.
  - injection Hrun as <-. split_and!; [done|intros id..];
      (split; [by left|]); intros [?|(? & ?%elem_of_nil & _)]; done.
  - simpl in Hrun.
    apply throwing_bind_inv in Hrun as ([] & cfg1 & Hhead & Hrest).
    destruct (proj2 (relations_entry_spec it cfg) cfg1 Hhead)
      as (Hw1 & Hy1 & Hn1).
    destruct (IH cfg1 cfg' Hrest) as (Hw & Hy & Hn).
    split_and!; [congruence|intros id..].
    + rewrite Hy, Hy1. setoid_rewrite elem_of_cons. split.
      * intros [[?|?]|(it' & ? & ?)]; eauto.
      * intros [?|(it' & [->|?] & ?)]; eauto.
    + rewrite Hn, Hn1. setoid_rewrite elem_of_cons. split.
      * intros [[?|?]|(it' & ? & ?)]; eauto.
      * intros [?|(it' & [->|?] & ?)]; eauto.
Qed.

Lemma for_each_ways_sets ws :
  ∀ cfg cfg',
    for_each (ways_entry get_long) ws cfg = (Some tt, cfg') →
    yesborder cfg' = yesborder cfg ∧ noborder cfg' = noborder cfg ∧
    ∀ id, is_Some (waymap cfg !! id) → is_Some (waymap cfg' !! id).
Proof.
  induction ws as [|it ws IH]; intros cfg cfg' Hrun.
  - by injection Hrun as <-.
  - simpl in Hrun.
    apply throwing_bind_inv in Hrun as ([] & cfg1 & Hhead & Hrest).
    destruct (proj2 (ways_entry_spec it cfg) cfg1 Hhead) as (Hy1 & Hn1 & Hk1).
    destruct (IH cfg1 cfg' Hrest) as (Hy & Hn & Hk).
    split_and!; [congruence..|]. intros id ?. by apply Hk, Hk1.
Qed.

Lemma for_each_ways_assigned ws :
  ∀ cfg cfg' it id,
    for_each (ways_entry get_long) ws cfg = (Some tt, cfg') →
    it ∈ ws → entry_id get_long it = Some id →
    is_Some (waymap cfg' !! id).
Proof.
  induction ws as [|it0 ws IH]; intros cfg cfg' it id Hrun Hin Hid.
  - by apply elem_of_nil in Hin.
  - simpl in Hrun.
    apply throwing_bind_inv in Hrun as ([] & cfg1 & Hhead & Hrest).
    apply elem_of_cons in Hin as [->|Hin]; [|by eapply IH].
    apply (proj2 (proj2 (for_each_ways_sets ws cfg1 cfg' Hrest))).
    destruct it0 as [| | | | | |fields]; try done. simpl in Hid.
    destruct (fields !! "osm_id") as [osm_id|] eqn:Hosm; [|done].
    destruct (ways_entry_assigns get_long _ _ _ _ Hosm Hhead)
      as (id' & Hid' & Hrec).
    simpl in Hid. rewrite Hid in Hid'. injection Hid' as <-.
    by rewrite Hrec.
Qed.

Lemma section_loop_items (body : json → throwing unit)
    (top : gmap string json) key :
  section_loop body (default JNull (top !! key))
  = for_each body (section_items top key).
Proof.
  unfold section_loop, section_items. by destruct (top !! key) as [[]|].
Qed.

Lemma jsonize_try_object top cfg :
  jsonize_try get_long (Some (JObject top)) cfg =
  (for_each (relations_entry get_long) (section_items top "relations") ;;
   for_each (ways_entry get_long) (section_items top "ways")) cfg.
Proof.
  unfold jsonize_try. rewrite <- !section_loop_items. reflexivity.
Qed.

Lemma jsonize_returns_inv top cfg cfg' :
  jsonize get_long (Some (JObject top)) cfg = (true, cfg') →
  ∃ cfg1,
    for_each (relations_entry get_long) (section_items top "relations") cfg
      = (Some tt, cfg1) ∧
    for_each (ways_entry get_long) (section_items top "ways") cfg1
      = (Some tt, cfg').
Proof.
  unfold jsonize. rewrite jsonize_try_object.
  match goal with
  | |- context [(?r).1] => destruct r as [[[]|] cfg2] eqn:Hrun
  end; [|done].
  cbn [fst snd]. intros [= <-].
  apply throwing_bind_inv in Hrun as ([] & cfg1 & ? & ?). eauto.
Qed.

Lemma jsonize_tables top cfg cfg' :
  jsonize get_long (Some (JObject top)) cfg = (true, cfg') →
  (∀ id, id ∈ yesborder cfg' ↔
         id ∈ yesborder cfg ∨
         ∃ it, it ∈ section_items top "relations" ∧
               listed get_long "whitelist" it id) ∧
  (∀ id, id ∈ noborder cfg' ↔
         id ∈ noborder cfg ∨
         ∃ it, it ∈ section_items top "relations" ∧
               listed get_long "blacklist" it id).
Proof.
  intros (cfg1 & Hrel & Hways)%jsonize_returns_inv.
  destruct (for_each_relations_sets _ _ _ Hrel) as (_ & Hy & Hn).
  destruct (for_each_ways_sets _ _ _ Hways) as (Hy' & Hn' & _).
  rewrite Hy', Hn'. by split.
Qed.

End change_file.

(** X6. [jsonize] returns true exactly on the change files that are in
    order: the document is null, or an object in which every entry of the
    "relations" array that is an object with an [osm_id] has flags that are
    absent or boolean and an [osm_id] that converts when a flag is true, and
    every entry of the "ways" array that is an object with an [osm_id] has
    one that converts. Entries that are no objects or have no [osm_id], and
    sections that are no arrays, never make it fail. *)
Theorem jsonize_accepts_iff (get_long : json → option object_id_type)
    (file : option json) (cfg : config) :
  (jsonize get_long file cfg).1 = true ↔ document_ok get_long file.
Proof.
  assert (Hret : (jsonize get_long file cfg).1 = true ↔
                 (jsonize_try get_long file cfg).1 = Some tt).
  { unfold jsonize. destruct (jsonize_try get_long file cfg).1 as [[]|];
      by split. }
  rewrite Hret.
  destruct file as [[| | | | | |top]|]; try by split.
  rewrite jsonize_try_object. unfold document_ok, mbind, throwing_bind.
  rewrite <- (for_each_returns_iff (relations_entry get_long)
                (relation_entry_ok get_long) _
                (λ x c, proj1 (relations_entry_spec get_long x c)) cfg).
  destruct (for_each (relations_entry get_long) _ cfg) as [[[]|] cfg1];
    cbn [fst snd].
  - rewrite (for_each_returns_iff (ways_entry get_long)
               (way_entry_ok get_long) _
               (λ x c, proj1 (ways_entry_spec get_long x c)) cfg1).
    split; [by split|by intros [_ ?]].
  - split; [done|by intros [? _]].
Qed.

(** X7. When [jsonize] returns true on a document, the allow-set holds what
    it held before and the identifiers the "relations" entries list with
    [whitelist] true, and nothing else; the deny-set likewise with
    [blacklist]. A successful change file removes nothing, so the sets of
    several change files add up. *)
Theorem jsonize_relation_sets (get_long : json → option object_id_type)
    (top : gmap string json) (cfg cfg' : config) :
  jsonize get_long (Some (JObject top)) cfg = (true, cfg') →
  (∀ id, id ∈ yesborder cfg' ↔
         id ∈ yesborder cfg ∨
         ∃ it, it ∈ section_items top "relations" ∧
               listed get_long "whitelist" it id) ∧
  (∀ id, id ∈ noborder cfg' ↔
         id ∈ noborder cfg ∨
         ∃ it, it ∈ section_items top "relations" ∧
               listed get_long "blacklist" it id).
Proof. apply jsonize_tables. Qed.

Lemma jsonize_relation_sets_witness :
  (∀ id, id ∈ yesborder sample_document_tables ↔
         id ∈ (∅ : idset) ∨
         ∃ it, it ∈ section_items sample_document "relations" ∧
               listed get_long_integer "whitelist" it id) ∧
  (∀ id, id ∈ noborder sample_document_tables ↔
         id ∈ (∅ : idset) ∨
         ∃ it, it ∈ section_items sample_document "relations" ∧
               listed get_long_integer "blacklist" it id).
Proof.
  apply (jsonize_relation_sets get_long_integer sample_document
           (Config ∅ ∅ ∅) sample_document_tables).
  vm_compute. reflexivity.
Defined.

(** X8. When [jsonize] returns true on a document, an identifier has an
    override record exactly if it had one before or some entry of the
    "ways" array has it as its identifier, and the record of an identifier
    that no entry has is the one it had before. *)
Theorem jsonize_waymap_records (get_long : json → option object_id_type)
    (top : gmap string json) (cfg cfg' : config) :
  jsonize get_long (Some (JObject top)) cfg = (true, cfg') →
  ∀ id,
    (is_Some (waymap cfg' !! id) ↔
     is_Some (waymap cfg !! id) ∨
     ∃ it, it ∈ section_items top "ways" ∧ entry_id get_long it = Some id) ∧
    ((∀ it, it ∈ section_items top "ways" → entry_id get_long it ≠ Some id) →
     waymap cfg' !! id = waymap cfg !! id).
Proof.
  intros (cfg1 & Hrel & Hways)%jsonize_returns_inv id.
  destruct (for_each_relations_sets get_long _ _ _ Hrel) as (Hw1 & _ & _).
  destruct (for_each_ways_sets get_long _ _ _ Hways) as (_ & _ & Hkeep).
  rewrite <- Hw1.
  assert (Hframe : (∀ it, it ∈ section_items top "ways" →
                      entry_id get_long it ≠ Some id) →
                   waymap cfg' !! id = waymap cfg1 !! id).
  { intros Hno. eapply for_each_ways_other; [|exact Hways].
    by apply Forall_forall. }
  split; [|done]. split.
  - intros Hsome.
    destruct (waymap cfg1 !! id) as [m|] eqn:Hold; [left; eauto|]. right.
    destruct (decide (Exists (λ it, entry_id get_long it = Some id)
                        (section_items top "ways"))) as [Hex|Hno].
    + apply Exists_exists in Hex as (it & ? & ?). eauto.
    + rewrite Hframe in Hsome; [by destruct Hsome|].
      intros it Hin Hid. apply Hno, Exists_exists. eauto.
  - intros [Hold|(it & Hin & Hid)]; [by apply Hkeep|].
    by eapply for_each_ways_assigned.
Qed.

Lemma jsonize_waymap_records_witness :
  (is_Some (waymap sample_document_tables !! 42) ↔
   is_Some ((∅ : idmap) !! 42) ∨
   ∃ it, it ∈ section_items sample_document "ways" ∧
         entry_id get_long_integer it = Some 42) ∧
  ((∀ it, it ∈ section_items sample_document "ways" →
          entry_id get_long_integer it ≠ Some 42) →
   waymap sample_document_tables !! 42 = (∅ : idmap) !! 42).
Proof.
  apply (jsonize_waymap_records get_long_integer sample_document
           (Config ∅ ∅ ∅) sample_document_tables).
  vm_compute. reflexivity.
Defined.

(** X9. A null document, and a document whose "relations" and "ways" are
    missing or are no arrays, is accepted and changes nothing: [jsonize]
    returns true and the three tables are as they were. *)
Theorem jsonize_without_sections (get_long : json → option object_id_type)
    (top : gmap string json) (cfg : config) :
  section_items top "relations" = [] →
  section_items top "ways" = [] →
  jsonize get_long (Some (JObject top)) cfg = (true, cfg) ∧
  jsonize get_long (Some JNull) cfg = (true, cfg).
Proof.
  intros Hrel Hways. split; [|done].
  unfold jsonize. rewrite jsonize_try_object, Hrel, Hways. done.
Qed.

Lemma jsonize_without_sections_witness :
  jsonize get_long_integer (Some (JObject document_without_sections))
    sample_tables = (true, sample_tables) ∧
  jsonize get_long_integer (Some JNull) sample_tables = (true, sample_tables).
Proof.
  apply (jsonize_without_sections get_long_integer document_without_sections
           sample_tables); reflexivity.
Defined.

(** X10. Change file and pass 1 together. After a change file that
    [jsonize] accepted, a relation whose identifier an entry lists with
    [blacklist] true is never written by pass 1, whatever its tags and
    whether it is also listed with [whitelist]; a relation of the input
    whose identifier an entry lists with [whitelist] true is written
    whatever its tags, provided the identifier is not in the deny-set. *)
Theorem change_file_forces_relations
    (get_long : json → option object_id_type)
    (top : gmap string json) (cfg cfg' : config)
    (it : json) (rels : list Relation) (r : Relation) :
  jsonize get_long (Some (JObject top)) cfg = (true, cfg') →
  it ∈ section_items top "relations" →
  r ∈ rels →
  (listed get_long "blacklist" it (relation_id r) →
   ERelation r ∉ (pass1 cfg' rels).1) ∧
  (listed get_long "whitelist" it (relation_id r) →
   relation_id r ∉ noborder cfg' →
   ERelation r ∈ (pass1 cfg' rels).1).
Proof.
  intros Hrun Hit Hr.
  destruct (jsonize_tables get_long _ _ _ Hrun) as [Hyes Hno].
  unfold pass1. rewrite pass1_fold. cbn [fst app].
  assert (Hmem : ERelation r ∈ ERelation <$> filter (spec_selected cfg') rels
                 ↔ spec_selected cfg' r).
  { rewrite list_elem_of_fmap. split.
    - intros (r' & [= <-] & [? _]%list_elem_of_filter). done.
    - intros Hsel. exists r. split; [done|]. by apply list_elem_of_filter. }
  rewrite Hmem. split.
  - intros Hlisted [Hnot _]. apply Hnot, Hno. right. eauto.
  - intros Hlisted Hnot. split; [done|]. left. apply Hyes. right. eauto.
Qed.

Lemma change_file_forces_relations_witness :
  (listed get_long_integer "blacklist"
     (JObject {[ "osm_id" := JInt 7; "whitelist" := JBool true;
                 "blacklist" := JBool true ]})
     (relation_id (sample_relation 7 [("boundary", "administrative")] [200])) →
   ERelation (sample_relation 7 [("boundary", "administrative")] [200])
   ∉ (pass1 sample_document_tables
        [sample_relation 7 [("boundary", "administrative")] [200]]).1) ∧
  (listed get_long_integer "whitelist"
     (JObject {[ "osm_id" := JInt 7; "whitelist" := JBool true;
                 "blacklist" := JBool true ]})
     (relation_id (sample_relation 7 [("boundary", "administrative")] [200])) →
   relation_id (sample_relation 7 [("boundary", "administrative")] [200])
   ∉ noborder sample_document_tables →
   ERelation (sample_relation 7 [("boundary", "administrative")] [200])
   ∈ (pass1 sample_document_tables
        [sample_relation 7 [("boundary", "administrative")] [200]]).1).
Proof.
  apply (change_file_forces_relations get_long_integer sample_document
           (Config ∅ ∅ ∅) sample_document_tables).
  - vm_compute. reflexivity.
  - left.
  - left.
Defined.

(** * Further properties of main *)

Section option_loop_outcomes.

Variable get_long : json → option object_id_type.

Lemma option_case_no_exit o c :
  ¬ exiting_option c → ∃ o', option_case get_long o c = inr o'.
Proof. destruct c; simpl; intros Hc; try (by destruct Hc); eauto. Qed.

Lemma option_case_exit_inv o c code stderr :
  option_case get_long o c = inl (code, stderr) →
  exiting_option c ∧
  (code = return_code_ok ∧ stderr = [] ∨
   code = return_code_fatal ∧
   ∃ diagnostic, c = opt_other diagnostic ∧ stderr = [plain diagnostic]).
Proof.
  destruct c; simpl; try done; intros [= <- <-]; split; eauto.
Qed.

Lemma option_loop_no_exit argv :
  ∀ o, Forall (λ c, ¬ exiting_option c) argv →
       ∃ o', option_loop get_long o argv = inr o'.
Proof.
  induction argv as [|c argv IH]; intros o Hall; simpl; [eauto|].
  apply Forall_cons in Hall as [Hc Hall].
  destruct (option_case_no_exit o c Hc) as [o1 ->]. by apply IH.
Qed.

Lemma option_loop_returns_inv argv :
  ∀ o o', option_loop get_long o argv = inr o' →
          Forall (λ c, ¬ exiting_option c) argv.
Proof.
  induction argv as [|c argv IH]; intros o o' Hloop; [constructor|].
  simpl in Hloop.
  destruct (option_case get_long o c) as [|o1] eqn:Hcase; [done|].
  constructor; [|by eapply IH].
  intros Hc. by destruct c.
Qed.

(** An exit in the option loop is the exit of an option of the command
    line: with the code for success and nothing on standard error, or with
    the fatal code and the diagnostic of [getopt_long]. *)
Lemma option_loop_exit_inv argv :
  ∀ o code stderr,
    option_loop get_long o argv = inl (code, stderr) →
    code = return_code_ok ∧ stderr = [] ∨
    code = return_code_fatal ∧
    ∃ diagnostic, opt_other diagnostic ∈ argv ∧ stderr = [plain diagnostic].
Proof.
  induction argv as [|c argv IH]; intros o code stderr Hloop; [done|].
  simpl in Hloop.
  destruct (option_case get_long o c) as [[code' stderr']|o1] eqn:Hcase.
  - injection Hloop as -> ->.
    apply option_case_exit_inv in Hcase
      as [_ [?|(-> & diagnostic & -> & ->)]]; [by left|].
    right. split; [done|]. exists diagnostic. split; [left|done].
  - destruct (IH _ _ _ Hloop) as [?|(-> & diagnostic & Hin & ->)];
      [by left|].
    right. split; [done|]. exists diagnostic. split; [by right|done].
Qed.

End option_loop_outcomes.

(** X11. The first option that makes the program exit decides the run,
    also when a change file given before it failed, when no output name
    was given and whatever the operands and the input are: with [--help]
    or [--version] the program exits with the code for success and nothing
    on standard error; with an option [getopt_long] does not accept it
    exits with the fatal code, and standard error holds the diagnostic of
    [getopt_long] and nothing else. *)
Theorem main_exits_on_option (get_long : json → option object_id_type)
    (before after : list cmd_option) (operands : nat) (infile : list entity)
    (e : option io_error) (mem : MemoryUsage) :
  Forall (λ c, ¬ exiting_option c) before →
  main get_long (before ++ opt_help :: after) operands infile e mem
    = Exit return_code_ok [] ∧
  main get_long (before ++ opt_version :: after) operands infile e mem
    = Exit return_code_ok [] ∧
  ∀ diagnostic,
    main get_long (before ++ opt_other diagnostic :: after) operands infile
      e mem
    = Exit return_code_fatal [plain diagnostic].
Proof.
  intros Hbefore. unfold main. rewrite !option_loop_app.
  destruct (option_loop_no_exit get_long before initial_options Hbefore)
    as [o Ho].
  split_and!; [| |intros diagnostic]; rewrite ?option_loop_app, Ho; done.
Qed.

Lemma main_exits_on_option_witness :
  main get_long_integer
    ([opt_changefile None; opt_verbose]
     ++ opt_other "osmborder_filter: invalid option -- 'x'"
     :: [opt_output "out.pbf"])
    3 boundary_file None (MkMemoryUsage 12 15)
  = Exit return_code_fatal [plain "osmborder_filter: invalid option -- 'x'"].
Proof.
  apply (main_exits_on_option get_long_integer
           [opt_changefile None; opt_verbose] [opt_output "out.pbf"]
           3 boundary_file None (MkMemoryUsage 12 15)).
  repeat constructor; intros [].
Defined.

(** X12. [main] returns with an output file only after all checks and
    when no [io_error] was raised: no option of the command line makes it
    exit, an output name was given, there is exactly one operand. Standard
    error then holds the change file warning if the last change file
    failed, after it in verbose mode the lines of [vout], and nothing else;
    the output is what the three passes give on the tables the option loop
    left. *)
Theorem main_returns_only_after_checks
    (get_long : json → option object_id_type)
    (argv : list cmd_option) (operands : nat) (infile : list entity)
    (e : option io_error) (mem : MemoryUsage)
    (stderr : list message) (written : output_file) :
  main get_long argv operands infile e mem = Returned stderr written →
  operands = 1%nat ∧ e = None ∧
  Forall (λ c, ¬ exiting_option c) argv ∧
  ∃ o, option_loop get_long initial_options argv = inr o ∧
       output_filename o ≠ "" ∧
       stderr = (if no_json_err o then [] else [json_warning])
                ++ (if verbose o
                    then timed <$> run_lines (tables o)
                                     (read_relations infile) mem
                    else []) ∧
       three_passes (verbose o) (tables o)
         (if no_json_err o then [] else [json_warning]) infile None mem
       = Returned stderr written.
Proof.
  unfold main.
  destruct (option_loop get_long initial_options argv) as [[]|o] eqn:Hloop;
    [done|].
  case_bool_decide as Hout; [done|]. case_bool_decide as Hops; [done|].
  intros Hrun.
  pose proof (three_passes_returned_no_error _ _ _ _ _ _ _ _ Hrun) as ->.
  split_and!; [|done| |].
  - destruct (decide (operands = 1%nat)); [done|]. by destruct Hops.
  - by eapply option_loop_returns_inv.
  - exists o. split_and!; [done..| |done].
    revert Hrun. rewrite three_passes_no_error. cbv zeta.
    destruct (pass2 _ _ _).2; [|done]. destruct (pass3 _ _).2; [|done].
    by intros [= <- _].
Qed.

Lemma main_returns_only_after_checks_witness :
  1%nat = 1%nat ∧ (None : option io_error) = None ∧
  Forall (λ c, ¬ exiting_option c)
    [opt_changefile None; opt_verbose; opt_output "out.pbf"] ∧
  ∃ o, option_loop get_long_integer initial_options
         [opt_changefile None; opt_verbose; opt_output "out.pbf"] = inr o ∧
       output_filename o ≠ "" ∧
       [json_warning;
        timed ("Reading relations (1st pass through input file)..."
               +:+ newline);
        timed ("Preparing way ID list..." +:+ newline);
        timed ("Reading ways (2nd pass through input file)..." +:+ newline);
        timed ("Preparing node ID list..." +:+ newline);
        timed ("Reading nodes (3rd pass through input file)..." +:+ newline);
        timed ("All done." +:+ newline)]
       = (if no_json_err o then [] else [json_warning])
         ++ (if verbose o
             then timed <$> run_lines (tables o)
                              (read_relations boundary_file)
                              (MkMemoryUsage 0 0)
             else []) ∧
       three_passes (verbose o) (tables o)
         (if no_json_err o then [] else [json_warning]) boundary_file None
         (MkMemoryUsage 0 0)
       = Returned
           [json_warning;
            timed ("Reading relations (1st pass through input file)..."
                   +:+ newline);
            timed ("Preparing way ID list..." +:+ newline);
            timed ("Reading ways (2nd pass through input file)..."
                   +:+ newline);
            timed ("Preparing node ID list..." +:+ newline);
            timed ("Reading nodes (3rd pass through input file)..."
                   +:+ newline);
            timed ("All done." +:+ newline)]
           {| out_header := the_header;
              out_entities :=
                [ERelation boundary_relation; EWay way_200;
                 ENode (sample_node 1); ENode (sample_node 2);
                 ENode (sample_node 3)] |}.
Proof.
  apply (main_returns_only_after_checks get_long_integer
           [opt_changefile None; opt_verbose; opt_output "out.pbf"] 1
           boundary_file None (MkMemoryUsage 0 0)).
  vm_compute. reflexivity.
Defined.

(** X13. Every exit of [main] is of one of two kinds. Either it is decided
    by the command line alone, in the option loop or in the checks, and is
    the same on every input, whatever the libraries raise and whatever the
    memory report: with the code for success standard error is empty, with
    the usage code it holds one message, after the change file warning if
    there is one, and with the fatal code it holds the diagnostic of
    [getopt_long] for an option of the command line. Or the checks were
    passed and an [io_error] was raised: the code is the fatal one and the
    handler's message for that error is the last on standard error. *)
Theorem main_exits_classified (get_long : json → option object_id_type)
    (argv : list cmd_option) (operands : nat) (infile : list entity)
    (e : option io_error) (mem : MemoryUsage)
    (code : return_code) (stderr : list message) :
  main get_long argv operands infile e mem = Exit code stderr →
  ((∀ infile' e' mem',
      main get_long argv operands infile' e' mem' = Exit code stderr) ∧
   match code with
   | return_code_ok => stderr = []
   | return_code_cmdline =>
       ∃ text, stderr = [plain text] ∨ stderr = [json_warning; plain text]
   | return_code_fatal =>
       ∃ diagnostic,
         opt_other diagnostic ∈ argv ∧ stderr = [plain diagnostic]
   end)
  ∨
  (code = return_code_fatal ∧ operands = 1%nat ∧
   ∃ raised written_before,
     e = Some raised ∧
     stderr = written_before
              ++ [plain ("io error: " +:+ what raised +:+ "'" +:+ newline)]).
Proof.
  unfold main.
  destruct (option_loop get_long initial_options argv) as [[code' stderr']|o]
    eqn:Hloop.
  { intros [= <- <-]. left. split; [done|].
    by destruct (option_loop_exit_inv get_long _ _ _ _ Hloop)
      as [[-> ->]|[-> ?]]. }
  case_bool_decide.
  { intros [= <- <-]. left. split; [done|].
    destruct (no_json_err o); eauto. }
  case_bool_decide as Hops.
  { intros [= <- <-]. left. split; [done|].
    destruct (no_json_err o); eauto. }
  intros Hrun. right.
  apply three_passes_exit_inv in Hrun as (-> & raised & lines & -> & ->).
  split_and!; [done| |].
  - destruct (decide (operands = 1%nat)); [done|]. by destruct Hops.
  - exists raised, ((if no_json_err o then [] else [json_warning])
                    ++ vout (verbose o) lines).
    split; [done|]. by rewrite <- app_assoc.
Qed.

Lemma main_exits_classified_witness :
  main get_long_integer [opt_verbose; opt_output "out.pbf"] 1
    boundary_file_with_unrelated_way
    (Some (IoError (reading_ways 1) "truncated file")) (MkMemoryUsage 0 0)
  = Exit return_code_fatal
      [timed ("Reading relations (1st pass through input file)..."
              +:+ newline);
       timed ("Preparing way ID list..." +:+ newline);
       timed ("Reading ways (2nd pass through input file)..." +:+ newline);
       plain ("io error: truncated file'" +:+ newline)] ∧
  (return_code_fatal = return_code_fatal ∧ 1%nat = 1%nat ∧
   ∃ raised written_before,
     Some (IoError (reading_ways 1) "truncated file") = Some raised ∧
     [timed ("Reading relations (1st pass through input file)..."
             +:+ newline);
      timed ("Preparing way ID list..." +:+ newline);
      timed ("Reading ways (2nd pass through input file)..." +:+ newline);
      plain ("io error: truncated file'" +:+ newline)]
     = written_before
       ++ [plain ("io error: " +:+ what raised +:+ "'" +:+ newline)]).
Proof.
  assert (Hrun :
    main get_long_integer [opt_verbose; opt_output "out.pbf"] 1
      boundary_file_with_unrelated_way
      (Some (IoError (reading_ways 1) "truncated file")) (MkMemoryUsage 0 0)
    = Exit return_code_fatal
        [timed ("Reading relations (1st pass through input file)..."
                +:+ newline);
         timed ("Preparing way ID list..." +:+ newline);
         timed ("Reading ways (2nd pass through input file)..." +:+ newline);
         plain ("io error: truncated file'" +:+ newline)]).
  { vm_compute. reflexivity. }
  split; [exact Hrun|].
  destruct (main_exits_classified get_long_integer _ _ _ _ _ _ _ Hrun)
    as [[Hsame _]|Hraised]; [|exact Hraised].
  specialize (Hsame boundary_file None (MkMemoryUsage 0 0)).
  vm_compute in Hsame. discriminate Hsame.
Defined.

(** X14. The warning tells of the last change file only. When the last
    [-c] of the command line names a file that [jsonize] accepts, no warning
    is written, also when a change file before it failed, and the tables of
    the run are what that file adds to the tables left by the options
    before it. *)
Theorem warning_reflects_last_change_file
    (get_long : json → option object_id_type)
    (before after : list cmd_option) (file : option json)
    (o1 : options) (cfg' : config) (infile : list entity)
    (e : option io_error) (mem : MemoryUsage) :
  option_loop get_long initial_options before = inr o1 →
  jsonize get_long file (tables o1) = (true, cfg') →
  Forall plain_option after →
  ∃ o,
    option_loop get_long initial_options
      (before ++ opt_changefile file :: after) = inr o ∧
    tables o = cfg' ∧ no_json_err o = true ∧
    (output_filename o ≠ "" →
     main get_long (before ++ opt_changefile file :: after) 1 infile e mem
     = three_passes (verbose o) cfg' [] infile e mem).
Proof.
  intros Hbefore Hfile Hafter.
  destruct (option_loop_plain get_long
              {| output_filename := output_filename o1; verbose := verbose o1;
                 tables := cfg'; no_json_err := true |}
              after Hafter) as (o & Ho & Htables & Herr).
  simpl in Htables, Herr.
  assert (Hloop : option_loop get_long initial_options
                    (before ++ opt_changefile file :: after) = inr o).
  { rewrite option_loop_app, Hbefore. simpl. by rewrite Hfile. }
  exists o. split_and!; [done..|].
  intros Hout. unfold main. rewrite Hloop, Htables, Herr.
  rewrite bool_decide_eq_false_2 by done.
  by rewrite bool_decide_eq_false_2 by (intros Hn; by apply Hn).
Qed.

Lemma warning_reflects_last_change_file_witness :
  ∃ o,
    option_loop get_long_integer initial_options
      ([opt_changefile None]
       ++ opt_changefile (Some (JObject sample_document))
       :: [opt_output "out.pbf"]) = inr o ∧
    tables o = sample_document_tables ∧ no_json_err o = true ∧
    (output_filename o ≠ "" →
     main get_long_integer
       ([opt_changefile None]
        ++ opt_changefile (Some (JObject sample_document))
        :: [opt_output "out.pbf"]) 1 boundary_file None (MkMemoryUsage 0 0)
     = three_passes (verbose o) sample_document_tables [] boundary_file None
         (MkMemoryUsage 0 0)).
Proof.
  apply (warning_reflects_last_change_file get_long_integer
           [opt_changefile None] [opt_output "out.pbf"]
           (Some (JObject sample_document))
           {| output_filename := ""; verbose := false;
              tables := Config ∅ ∅ ∅; no_json_err := false |}
           sample_document_tables boundary_file None (MkMemoryUsage 0 0)).
  - reflexivity.
  - vm_compute. reflexivity.
  - repeat constructor.
Defined.

(** * Further properties of the passes on collected identifiers *)

Lemma pass2_selects_witness :
  (pass2 sample_tables [200; 200] [way_150; ring_200; way_300]).2
  = Some (rewrite_way sample_tables
            <$> filter (λ w, way_id w ∈ [200; 200])
                  [way_150; ring_200; way_300],
          filter (λ w, way_id w ∈ [200; 200]) [way_150; ring_200; way_300]
            ≫= node_refs).
Proof.
  apply (pass2_selects sample_tables [200; 200] [way_150; ring_200; way_300]).
  - vm_compute. repeat constructor.
  - left. intros Hnd. apply NoDup_cons in Hnd as [Hn _]. apply Hn. left.
Defined.

Lemma pass3_selects_witness :
  (pass3 [3; 1; 2] [sample_node 0; sample_node 2; sample_node 3]).2
  = Some (filter (λ n, node_id n ∈ [3; 1; 2])
            [sample_node 0; sample_node 2; sample_node 3]).
Proof.
  apply (pass3_selects [3; 1; 2] [sample_node 0; sample_node 2; sample_node 3]).
  - vm_compute. repeat constructor.
  - right. intros n Hn. exists 3. split; [left|].
    repeat (apply elem_of_cons in Hn as [->|Hn]; [vm_compute; discriminate|]).
    by apply elem_of_nil in Hn.
Defined.

Lemma passes_past_end_witness :
  (pass2 sample_tables [200] [way_200; way_300]).2 = None ∧
  (pass3 [1; 2; 3] [sample_node 2; sample_node 4]).2 = None.
Proof.
  assert (Hways : NoDup [200]).
  { apply NoDup_cons_2; [by intros ?%elem_of_nil|apply NoDup_nil_2]. }
  assert (Hnodes : NoDup [1; 2; 3]).
  { repeat (apply NoDup_cons_2;
      [intros H;
       repeat (apply elem_of_cons in H as [H|H]; [discriminate H|]);
       by apply elem_of_nil in H|]).
    apply NoDup_nil_2. }
  split.
  - apply (proj1 (passes_past_end sample_tables [200] Hways)
             [way_200; way_300] way_300).
    + right. left.
    + repeat constructor.
  - apply (proj2 (passes_past_end sample_tables [1; 2; 3] Hnodes)
             [sample_node 2; sample_node 4] (sample_node 4)).
    + right. left.
    + repeat constructor.
Defined.

(** * Further properties of the rewrite handler *)

Lemma get_value_by_key_app (ts1 ts2 : TagList) k :
  get_value_by_key (ts1 ++ ts2) k =
  match get_value_by_key ts1 k with
  | Some v => Some v
  | None => get_value_by_key ts2 k
  end.
Proof.
  unfold get_value_by_key. induction ts1 as [|t ts1 IH]; simpl; [done|].
  by destruct (bool_decide (t.1 = k)).
Qed.

Lemma get_value_by_key_items (m : strmap) k :
  get_value_by_key (strmap_items m) k = m !! k.
Proof.
  apply option_eq. intros v.
  rewrite get_value_by_key_elem_of.
  - apply elem_of_strmap_items.
  - rewrite strmap_items_perm. apply NoDup_fst_map_to_list.
Qed.

(** X18. What a reader that takes the first tag of a key finds in a way
    written with an override: for a key the way already has, the old value;
    for any other key, the value of the override, if it has one. An override
    is effective for such a reader only on keys that are new to the way. *)
Theorem tags_seen_after_override (w : Way) (tagmap : strmap) (k : string) :
  get_value_by_key (way_tags (RewriteHandler.way_with w tagmap)) k =
  match get_value_by_key (way_tags w) k with
  | Some v => Some v
  | None => tagmap !! k
  end.
Proof.
  unfold RewriteHandler.way_with. cbn [way_tags].
  by rewrite copy_tags_with_app, get_value_by_key_app, get_value_by_key_items.
Qed.

(** X19. The handlers for unchanged objects write the identifier, the tags
    in their order and the members, node references or location as they
    were read, and a new object's values for all other attributes; writing
    a way with an empty override record is writing it unchanged; writing
    the written way again changes nothing. *)
Theorem passthrough_handlers (w : Way) (n : Node) (r : Relation) :
  RewriteHandler.way w
    = MkWay (way_id w) default_meta (way_tags w) (way_nodes w) ∧
  RewriteHandler.node n
    = MkNode (node_id n) default_meta (node_tags n) (node_location n) ∧
  RewriteHandler.relation r
    = MkRelation (relation_id r) default_meta (relation_tags r)
        (relation_members r) ∧
  RewriteHandler.way_with w ∅ = RewriteHandler.way w ∧
  RewriteHandler.way (RewriteHandler.way w) = RewriteHandler.way w.
Proof.
  unfold RewriteHandler.way, RewriteHandler.node, RewriteHandler.relation,
    RewriteHandler.way_with.
  cbn [way_id way_tags way_nodes].
  rewrite !copy_tags_id, copy_tags_with_app.
  assert (Hempty : strmap_items ∅ = []).
  { apply Permutation_nil_r. rewrite strmap_items_perm.
    by rewrite map_to_list_empty. }
  rewrite Hempty, app_nil_r. done.
Qed.
